(** * Particle swarm optimisation: a shallow embedding of
      [pso-python/particle_swarm_optimisation.py] and its verified properties.

    Numbers are IEEE 754 binary64 floats, exactly the values Python's [float]
    and numpy's [float64] hold; they are modelled by Rocq's primitive floats.
    The two numpy arrays of a particle that can share storage ([position] and
    [best_position]) live in an explicit store; the module-level generator of
    [random] is a stream of floats read through a cursor. *)

From Stdlib Require Import ZArith Floats Lia String.
From stdpp Require Import base list.

Set Default Proof Using "Type".

(** ** numpy arrays of two floats, by value *)

Module Np.

Definition array : Type := float * float.

(** [a + b], [a - b] and [k * a] of numpy, element by element. *)
Definition add (a b : array) : array := ((a.1 + b.1)%float, (a.2 + b.2)%float).
Definition sub (a b : array) : array := ((a.1 - b.1)%float, (a.2 - b.2)%float).
Definition scale (k : float) (a : array) : array := ((k * a.1)%float, (k * a.2)%float).

End Np.

(** ** The store of array objects and the random generator *)

(** An array object is named by its index in the store. *)
Abbreviation loc := nat (only parsing).

Record World : Type := mkWorld {
  heap : list Np.array;   (* the position and best-position arrays made so far *)
  cursor : nat            (* how many numbers [random.random()] has handed out *)
}.

(** Reading an array object.  Locations held by a particle are always
    allocated (see [valid_particle]); outside the store the read is (0, 0). *)
Definition load (h : list Np.array) (l : loc) : Np.array :=
  match h !! l with
  | Some v => v
  | None => (0%float, 0%float)
  end.

(** A computation that reads and writes the world. *)
Definition M (A : Type) : Type := World -> A * World.

Definition ret {A} (a : A) : M A := fun w => (a, w).
Definition bind {A B} (m : M A) (k : A -> M B) : M B :=
  fun w => let '(a, w') := m w in k a w'.

Notation "x <- m ;; k" := (bind m (fun x => k))
  (at level 100, m at level 99, k at level 200, right associativity).

(** [np.array([x, y])] and [np.copy(a)] build a new array object. *)
Definition np_array (v : Np.array) : M loc :=
  fun w => (length (heap w), mkWorld (heap w ++ [v]) (cursor w)).

Definition np_copy (l : loc) : M loc :=
  fun w => np_array (load (heap w) l) w.

(** [a += v] on an array object: the object is changed in place. *)
Definition iadd (l : loc) (v : Np.array) : M unit :=
  fun w => (tt, mkWorld (<[l := Np.add (load (heap w) l) v]> (heap w)) (cursor w)).

(** [for x in xs: body(x)] where the body changes [x] in place. *)
Fixpoint for_each {A} (body : A -> M A) (xs : list A) : M (list A) :=
  match xs with
  | [] => ret []
  | x :: rest =>
      x' <- body x ;;
      rest' <- for_each body rest ;;
      ret (x' :: rest')
  end.

(** [n] calls of a constructor: [[f() for _ in range(n)]]. *)
Fixpoint replicateM {A} (n : nat) (f : M A) : M (list A) :=
  match n with
  | O => ret []
  | S k =>
      x <- f ;;
      rest <- replicateM k f ;;
      ret (x :: rest)
  end.

(** ** Constants of the module *)

Definition CURRENT_COMPENSATION : float := 0.5%float.
(* 0.65 is not a binary64 value: Python reads it as the nearest one, below. *)
Definition PERSONAL_BEST_COMPENSATION : float := 0x1.4cccccccccccdp-1%float.
Definition GLOBAL_BEST_COMPENSATION : float := 1.0%float.

(** ** Particles *)

Record Particle : Type := mkParticle {
  position : loc;
  best_position : loc;
  best_position_value : float;
  (* bound to a new array at every assignment and never changed in place,
     hence kept by value *)
  velocity : Np.array
}.

(** [(x ** 2) + (y ** 2) + 2] at the particle's position; the square of a
    float is the rounded product. *)
Definition get_particle_fitness (h : list Np.array) (particle : Particle) : float :=
  let p := load h (position particle) in
  ((p.1 * p.1) + (p.2 * p.2) + 2)%float.

(** [Particle.move]: [self.position += self.velocity] *)
Definition move (p : Particle) : M Particle :=
  u <- iadd (position p) (velocity p) ;;
  ret p.

(** Reading the value of an array object inside a computation. *)
Definition read (l : loc) : M Np.array := fun w => (load (heap w) l, w).

(** ** The search space *)

Record SearchSpace : Type := mkSearchSpace {
  num_particles : Z;
  particles : list Particle;
  target : float;
  target_exit_boundary : float;
  (* bound only to arrays built by [np.array] or [np.copy] for it alone and
     never changed in place, hence kept by value *)
  global_best_position : Np.array;
  global_best_value : float
}.

Definition set_particles (s : SearchSpace) (ps : list Particle) : SearchSpace :=
  mkSearchSpace (num_particles s) ps (target s) (target_exit_boundary s)
    (global_best_position s) (global_best_value s).

Definition set_global_best (s : SearchSpace) (best : Np.array * float) : SearchSpace :=
  mkSearchSpace (num_particles s) (particles s) (target s) (target_exit_boundary s)
    best.1 best.2.

(** The body of the loop of [update_particle_best]. *)
Definition update_best (particle : Particle) : M Particle :=
  fun w =>
    let candidate := get_particle_fitness (heap w) particle in
    if (candidate <? best_position_value particle)%float then
      (copy <- np_copy (position particle) ;;
       ret (mkParticle (position particle) copy candidate (velocity particle))) w
    else (particle, w).

Definition update_particle_best (s : SearchSpace) : M SearchSpace :=
  ps <- for_each update_best (particles s) ;;
  ret (set_particles s ps).

(** The body of the loop of [update_global_best], on the pair
    ([global_best_position], [global_best_value]). *)
Definition global_best_step (h : list Np.array) (best : Np.array * float)
    (particle : Particle) : Np.array * float :=
  let candidate := get_particle_fitness h particle in
  if (candidate <? best.2)%float then (load h (position particle), candidate)
  else best.

Definition update_global_best (s : SearchSpace) : M SearchSpace :=
  fun w =>
    (set_global_best s
       (fold_left (global_best_step (heap w)) (particles s)
          (global_best_position s, global_best_value s)), w).

(** [abs(target - global_best_value) <= target_exit_boundary], the
    termination condition tested in the main loop. *)
Definition termination_condition (s : SearchSpace) : bool :=
  (abs (target s - global_best_value s) <=? target_exit_boundary s)%float.

(** ** The variables of the main program *)

(** What the user types in, already read by [float] and [int]. *)
Record Config : Type := mkConfig {
  TARGET_EXIT_BOUNDARY : float;
  NUM_PARTICLES : Z;
  MAX_ITERATIONS : Z
}.

Definition TARGET : float := 2%float.

(** [I_] is the counter [I]. *)
Record Run : Type := mkRun {
  SEARCH_SPACE : SearchSpace;
  I_ : Z;
  FITNESS_RECORD : list float
}.

Inductive flow : Type := Break | Continue.

(** How a Python computation ends: with a value, with an exception of the
    named class, or not within the steps the model was given. *)
Inductive outcome (A : Type) : Type :=
  | Returned (a : A)
  | Raised (exception : string)
  | OutOfFuel.
Arguments Returned {A} a.
Arguments Raised {A} exception.
Arguments OutOfFuel {A}.

Definition empty_world : World := mkWorld [] 0.

(** [((-1) ** (s >= 0.5)) * r * 50]: a coordinate within 50 of the origin,
    from a number [s] that decides the sign and a number [r]. *)
Definition coordinate (s r : float) : float :=
  ((if (0.5 <=? s)%float then (-1)%float else 1%float) * r * 50)%float.

Section WithRandom.

(** The numbers the generator hands out, in order. *)
Variable rng : nat -> float.

(** [random.random()] *)
Definition random : M float :=
  fun w => (rng (cursor w), mkWorld (heap w) (S (cursor w))).

(** [((-1) ** (random.random() >= 0.5)) * random.random() * 50] *)
Definition rand_coordinate : M float :=
  s <- random ;;
  r <- random ;;
  ret (coordinate s r).

(** [Particle.__init__]: [best_position] is bound to the very array object
    that [position] is bound to.  The velocity [np.array([0, 0])] holds
    integers; the first velocity update turns it into floats, so it is the
    float zero here. *)
Definition Particle_init : M Particle :=
  rand_x <- rand_coordinate ;;
  rand_y <- rand_coordinate ;;
  pos <- np_array (rand_x, rand_y) ;;
  ret (mkParticle pos pos infinity (0%float, 0%float)).

(** [SearchSpace.__init__]; [range(n)] is empty for [n <= 0]. *)
Definition SearchSpace_init (target target_exit_boundary : float)
    (number_particles : Z) : M SearchSpace :=
  ps <- replicateM (Z.to_nat number_particles) Particle_init ;;
  rand_x <- rand_coordinate ;;
  rand_y <- rand_coordinate ;;
  ret (mkSearchSpace number_particles ps target target_exit_boundary
         (rand_x, rand_y) infinity).

(** The body of the loop of [iterate_particles]. *)
Definition iterate_particle (global_best : Np.array) (particle : Particle)
    : M Particle :=
  r1 <- random ;;
  best <- read (best_position particle) ;;
  pos <- read (position particle) ;;
  let personal_adjustment :=
    Np.scale (PERSONAL_BEST_COMPENSATION * r1)%float (Np.sub best pos) in
  r2 <- random ;;
  pos' <- read (position particle) ;;
  let global_adjustment :=
    Np.scale (GLOBAL_BEST_COMPENSATION * r2)%float (Np.sub global_best pos') in
  let updated_velocity :=
    Np.add (Np.add (Np.scale CURRENT_COMPENSATION (velocity particle))
              personal_adjustment) global_adjustment in
  move (mkParticle (position particle) (best_position particle)
          (best_position_value particle) updated_velocity).

Definition iterate_particles (s : SearchSpace) : M SearchSpace :=
  ps <- for_each (iterate_particle (global_best_position s)) (particles s) ;;
  ret (set_particles s ps).

(** ** The main program *)

(** One pass through the body of the [while] loop.  The plotting calls
    only read the state and are left out. *)
Definition loop_body (st : Run) : M (flow * Run) :=
  s1 <- update_particle_best (SEARCH_SPACE st) ;;
  s2 <- update_global_best s1 ;;
  if termination_condition s2 then
    ret (Break, mkRun s2 (I_ st) (FITNESS_RECORD st))
  else
    s3 <- iterate_particles s2 ;;
    ret (Continue,
         mkRun s3 (I_ st + 1) (FITNESS_RECORD st ++ [global_best_value s3])).

(** [while I < MAX_ITERATIONS: ...], at most [fuel] passes. *)
Fixpoint while_loop (max_iterations : Z) (fuel : nat) (st : Run) (w : World)
    : outcome (Run * World) :=
  if (I_ st <? max_iterations)%Z then
    match fuel with
    | O => OutOfFuel
    | S fuel' =>
        match loop_body st w with
        | (Break, st', w') => Returned (st', w')
        | (Continue, st', w') => while_loop max_iterations fuel' st' w'
        end
    end
  else Returned (st, w).

(** The state when the loop is entered. *)
Definition start (c : Config) : Run * World :=
  let '(s, w) :=
    SearchSpace_init TARGET (TARGET_EXIT_BOUNDARY c) (NUM_PARTICLES c) empty_world in
  (mkRun s 0 [], w).

(** The program up to the report of the result. *)
Definition main (c : Config) : outcome (Run * World) :=
  let '(st, w) := start c in
  while_loop (MAX_ITERATIONS c) (Z.to_nat (MAX_ITERATIONS c)) st w.

End WithRandom.

(** ** Notions used to state the properties *)

(** The running best after one more candidate, as both update loops decide
    it: the candidate wins only when it is strictly smaller. *)
Definition fmin (best candidate : float) : float :=
  if (candidate <? best)%float then candidate else best.

(** The arrays of a particle are allocated. *)
Definition valid_particle (h : list Np.array) (p : Particle) : Prop :=
  position p < length h ∧ best_position p < length h.

(** The [position] array of a particle is no array of another particle.  A
    particle's own [best_position] may be its [position]. *)
Fixpoint separated (ps : list Particle) : Prop :=
  match ps with
  | [] => True
  | p :: rest =>
      Forall (fun q => position q ≠ position p ∧ position q ≠ best_position p
                       ∧ position p ≠ best_position q) rest
      ∧ separated rest
  end.

Definition swarm_ok (h : list Np.array) (ps : list Particle) : Prop :=
  Forall (valid_particle h) ps ∧ separated ps.

(** The fitness values that [update_global_best] computes in the pass that
    starts in state [st], in the order of the particles. *)
Definition observed (st : Run) (w : World) : list float :=
  let '(s1, w1) := update_particle_best (SEARCH_SPACE st) w in
  map (get_particle_fitness (heap w1)) (particles s1).

(** The velocity that [iterate_particles] gives a particle, from the two
    numbers drawn for it. *)
Definition new_velocity (r1 r2 : float) (v best pos global_best : Np.array) : Np.array :=
  Np.add
    (Np.add (Np.scale 0.5%float v)
            (Np.scale (0x1.4cccccccccccdp-1 * r1)%float (Np.sub best pos)))
    (Np.scale (1.0 * r2)%float (Np.sub global_best pos)).

(** The store only grows under the personal-best update. *)
Definition grows (w w' : World) : Prop :=
  (∃ t, heap w' = heap w ++ t) ∧ cursor w' = cursor w.

(** What the personal-best update keeps of a particle, and how its best
    value moves. *)
Definition best_step (p p' : Particle) : Prop :=
  position p' = position p ∧ velocity p' = velocity p ∧
  (best_position_value p' = best_position_value p
   ∨ (best_position_value p' <? best_position_value p)%float = true).

(** What the velocity update keeps of a particle. *)
Definition iter_keep (p p' : Particle) : Prop :=
  position p' = position p ∧ best_position p' = best_position p ∧
  best_position_value p' = best_position_value p.

(** Less than or equal, for two values of a best record: equal, or strictly
    smaller. *)
Definition not_above (new old : float) : Prop :=
  new = old ∨ (new <? old)%float = true.

(** How the arrays of a swarm of [n] particles lie in the store: the
    [position] arrays are distinct and among the first [n] objects, and a
    [best_position] is the particle's own [position] array or an object
    made later. *)
Definition well_placed (n : nat) (h : list Np.array) (p : Particle) : Prop :=
  position p < n ∧ best_position p < length h
  ∧ (best_position p = position p ∨ n ≤ best_position p).

Definition layout (n : nat) (h : list Np.array) (ps : list Particle) : Prop :=
  n ≤ length h ∧ NoDup (map position ps) ∧ Forall (well_placed n h) ps.

(** Magnitudes of finite floats compare by exponent, then by mantissa. *)
Definition mag_cmp (e1 : Z) (m1 : positive) (e2 : Z) (m2 : positive) : comparison :=
  match Z.compare e1 e2 with
  | Lt => Lt
  | Gt => Gt
  | Eq => Pos.compare_cont Eq m1 m2
  end.

Section Reachable.

Variable rng : nat -> float.
Variable c : Config.

(** [reaches k obs x]: the run of configuration [c] is in state [x] after
    [k] passes through the loop body, and [obs] lists the fitness values
    the global-best updates have computed so far.  Only a state flagged
    [Continue] whose counter is below the budget starts another pass. *)
Inductive reaches : nat -> list float -> flow * Run * World -> Prop :=
  | reaches_start :
      reaches 0 [] (Continue, (start rng c).1, (start rng c).2)
  | reaches_pass k obs st w :
      reaches k obs (Continue, st, w) ->
      (I_ st <? MAX_ITERATIONS c)%Z = true ->
      reaches (S k) (obs ++ observed st w) (loop_body rng st w).

End Reachable.

(** Generators used in the examples. *)
Definition zeros : nat -> float := fun _ => 0%float.
Definition quarters : nat -> float :=
  fun n => if Nat.even n then 0.75%float else 0.25%float.
Definition sample : nat -> float :=
  fun n => nth n [0.75; 0.5; 0.25; 0.125; 0; 0.25; 0.75; 0.5]%float 0.5%float.

(** * Properties *)

(** ** Order of binary64 floats *)

Module FloatOrder.

Lemma mag_cmp_spec e1 m1 e2 m2 :
  match mag_cmp e1 m1 e2 m2 with
  | Lt => (e1 < e2)%Z ∨ (e1 = e2 ∧ (m1 < m2)%positive)
  | Eq => e1 = e2 ∧ m1 = m2
  | Gt => (e2 < e1)%Z ∨ (e1 = e2 ∧ (m2 < m1)%positive)
  end.
Proof.
  unfold mag_cmp. change (Pos.compare_cont Eq m1 m2) with (Pos.compare m1 m2).
  destruct (Z.compare_spec e1 e2); destruct (Pos.compare_spec m1 m2); lia.
Qed.

Lemma SFcompare_finite s1 m1 e1 s2 m2 e2 :
  SFcompare (S754_finite s1 m1 e1) (S754_finite s2 m2 e2) =
  Some (match s1, s2 with
        | true, false => Lt
        | false, true => Gt
        | false, false => mag_cmp e1 m1 e2 m2
        | true, true => CompOpp (mag_cmp e1 m1 e2 m2)
        end).
Proof.
  unfold mag_cmp; destruct s1, s2; simpl; try reflexivity.
  destruct (e1 ?= e2)%Z; reflexivity.
Qed.

(** Case analysis on every float of the goal, sign by sign. *)
Ltac spec_order :=
  repeat match goal with x : spec_float |- _ => destruct x as [[]|[]| |[] ? ?] end;
  rewrite ?SFcompare_finite; cbv [SFcompare]; try discriminate; try reflexivity;
  repeat match goal with
  | |- context [mag_cmp ?a ?b ?c ?d] =>
      let H := fresh in
      pose proof (mag_cmp_spec a b c d) as H; destruct (mag_cmp a b c d)
  end; simpl; try discriminate; try reflexivity; intros; exfalso; lia.

Lemma SFltb_trans x y z : SFltb x y = true → SFltb y z = true → SFltb x z = true.
Proof. unfold SFltb. spec_order. Qed.

Lemma SFleb_trans x y z : SFleb x y = true → SFleb y z = true → SFleb x z = true.
Proof. unfold SFleb. spec_order. Qed.

Lemma SFltb_leb x y : SFltb x y = true → SFleb x y = true.
Proof. unfold SFltb, SFleb. destruct (SFcompare x y) as [[]|]; done. Qed.

Lemma SFleb_total x y :
  SFeqb x x = true → SFeqb y y = true → SFltb x y = false → SFleb y x = true.
Proof. unfold SFltb, SFleb, SFeqb. spec_order. Qed.

Lemma SFltb_eqb_l x y : SFltb x y = true → SFeqb x x = true.
Proof. unfold SFltb, SFeqb. spec_order. Qed.

Lemma SFltb_irrefl x : SFltb x x = false.
Proof. unfold SFltb. spec_order. Qed.

Lemma SFleb_refl x : SFeqb x x = true → SFleb x x = true.
Proof. unfold SFleb, SFeqb. destruct (SFcompare x x) as [[]|]; done. Qed.

Lemma SFleb_abs_nonneg x b :
  SFleb (SFabs x) b = true → SFltb b (S754_zero false) = false.
Proof. unfold SFleb, SFltb. spec_order. Qed.

(** The same facts on primitive floats. *)

Lemma ltb_trans (x y z : float) :
  (x <? y)%float = true → (y <? z)%float = true → (x <? z)%float = true.
Proof. rewrite !ltb_spec. apply SFltb_trans. Qed.

Lemma leb_trans (x y z : float) :
  (x <=? y)%float = true → (y <=? z)%float = true → (x <=? z)%float = true.
Proof. rewrite !leb_spec. apply SFleb_trans. Qed.

Lemma ltb_leb (x y : float) : (x <? y)%float = true → (x <=? y)%float = true.
Proof. rewrite ltb_spec, leb_spec. apply SFltb_leb. Qed.

Lemma ltb_irrefl (x : float) : (x <? x)%float = false.
Proof. rewrite ltb_spec. apply SFltb_irrefl. Qed.

Lemma ltb_not_nan (x y : float) : (x <? y)%float = true → is_nan x = false.
Proof.
  unfold is_nan. rewrite ltb_spec, FloatAxioms.eqb_spec. intros H.
  by rewrite (SFltb_eqb_l _ _ H).
Qed.

Lemma leb_refl (x : float) : is_nan x = false → (x <=? x)%float = true.
Proof.
  unfold is_nan. rewrite leb_spec, FloatAxioms.eqb_spec, Bool.negb_false_iff.
  apply SFleb_refl.
Qed.

Lemma leb_total (x y : float) :
  is_nan x = false → is_nan y = false →
  (x <? y)%float = false → (y <=? x)%float = true.
Proof.
  unfold is_nan.
  rewrite ltb_spec, leb_spec, !FloatAxioms.eqb_spec, !Bool.negb_false_iff.
  apply SFleb_total.
Qed.

Lemma leb_abs_nonneg (x b : float) :
  (abs x <=? b)%float = true → (b <? 0)%float = false.
Proof.
  rewrite leb_spec, ltb_spec, abs_spec.
  change (Prim2SF 0) with (S754_zero false). apply SFleb_abs_nonneg.
Qed.

End FloatOrder.

(** ** The store and the loop over the particles *)

Lemma load_app_l (h t : list Np.array) (l : loc) :
  l < length h → load (h ++ t) l = load h l.
Proof. intros Hl. unfold load. by rewrite lookup_app_l. Qed.

Lemma load_app_new (h : list Np.array) (v : Np.array) :
  load (h ++ [v]) (length h) = v.
Proof. unfold load. by rewrite list_lookup_middle. Qed.

Lemma load_insert_eq (h : list Np.array) (l : loc) (v : Np.array) :
  l < length h → load (<[l := v]> h) l = v.
Proof. intros Hl. unfold load. by rewrite list_lookup_insert_eq. Qed.

Lemma load_insert_ne (h : list Np.array) (l l' : loc) (v : Np.array) :
  l ≠ l' → load (<[l := v]> h) l' = load h l'.
Proof. intros Hl. unfold load. by rewrite list_lookup_insert_ne. Qed.

Lemma load_lookup (h : list Np.array) (l : loc) (v : Np.array) :
  h !! l = Some v → load h l = v ∧ l < length h.
Proof.
  intros Hl. split; [unfold load; by rewrite Hl|].
  by eapply lookup_lt_Some.
Qed.

Section ForEach.

Context {A : Type} (body : A → M A).

Lemma for_each_cons (x : A) (xs : list A) (w : World) :
  for_each body (x :: xs) w =
  ((body x w).1 :: (for_each body xs (body x w).2).1,
   (for_each body xs (body x w).2).2).
Proof.
  simpl. unfold bind, ret. destruct (body x w) as [x' w1]. simpl.
  by destruct (for_each body xs w1).
Qed.

(** A loop whose body relates each element to its new value by [R] and
    the worlds before and after by the preorder [Q], on elements that
    satisfy [P], does so on the whole list. *)
Lemma for_each_rel (P : A → Prop) (R : A → A → Prop) (Q : World → World → Prop) :
  (∀ w, Q w w) →
  (∀ w1 w2 w3, Q w1 w2 → Q w2 w3 → Q w1 w3) →
  (∀ x w, P x → R x (body x w).1 ∧ Q w (body x w).2) →
  ∀ xs w, Forall P xs →
    Forall2 R xs (for_each body xs w).1 ∧ Q w (for_each body xs w).2.
Proof.
  intros Hrefl Htrans Hbody xs.
  induction xs as [|x xs IH]; intros w HP.
  - simpl. split; [constructor | apply Hrefl].
  - rewrite for_each_cons. simpl.
    apply Forall_cons in HP as [Hx Hxs].
    destruct (Hbody x w Hx) as [HR HQ].
    destruct (IH (body x w).2 Hxs) as [HRs HQs].
    split; [by constructor | by eapply Htrans].
Qed.

Lemma for_each_length (xs : list A) (w : World) :
  length (for_each body xs w).1 = length xs.
Proof.
  revert w. induction xs as [|x xs IH]; intros w; [done|].
  rewrite for_each_cons. simpl. by rewrite IH.
Qed.

End ForEach.

Lemma for_each_ext {A} (f g : A → M A) (xs : list A) (w : World) :
  (∀ x w, f x w = g x w) → for_each f xs w = for_each g xs w.
Proof.
  intros Hfg. revert w. induction xs as [|x xs IH]; intros w; [done|].
  by rewrite !for_each_cons, Hfg, !IH.
Qed.

(** ** Personal bests *)

(** What [update_best] does, case by case. *)
Lemma update_best_eq (p : Particle) (w : World) :
  update_best p w =
  if (get_particle_fitness (heap w) p <? best_position_value p)%float then
    (mkParticle (position p) (length (heap w))
       (get_particle_fitness (heap w) p) (velocity p),
     mkWorld (heap w ++ [load (heap w) (position p)]) (cursor w))
  else (p, w).
Proof. unfold update_best. by destruct (_ <? _)%float. Qed.

Lemma grows_refl w : grows w w.
Proof. split; [exists []; by rewrite app_nil_r | done]. Qed.

Lemma grows_trans w1 w2 w3 : grows w1 w2 → grows w2 w3 → grows w1 w3.
Proof.
  intros [[t1 H1] C1] [[t2 H2] C2]. split; [|congruence].
  exists (t1 ++ t2). by rewrite H2, H1, app_assoc.
Qed.

Lemma grows_load w w' l : grows w w' → l < length (heap w) →
  load (heap w') l = load (heap w) l.
Proof. intros [[t ->] _] Hl. by apply load_app_l. Qed.

Lemma grows_length w w' : grows w w' → length (heap w) ≤ length (heap w').
Proof. intros [[t ->] _]. rewrite length_app. lia. Qed.

Lemma update_best_step (p : Particle) (w : World) :
  best_step p (update_best p w).1 ∧ grows w (update_best p w).2.
Proof.
  rewrite update_best_eq.
  destruct (_ <? _)%float eqn:Hlt; simpl.
  - split; [repeat split; by right |].
    split; [by eexists | done].
  - split; [repeat split; by left | apply grows_refl].
Qed.

Lemma update_particle_best_step (s : SearchSpace) (w : World) :
  Forall2 best_step (particles s) (particles (update_particle_best s w).1)
  ∧ grows w (update_particle_best s w).2.
Proof.
  unfold update_particle_best, bind, ret.
  destruct (for_each update_best (particles s) w) as [ps w'] eqn:E. simpl.
  pose proof (for_each_rel update_best (λ _, True) best_step grows
                grows_refl grows_trans
                (λ x w _, update_best_step x w) (particles s) w) as H.
  rewrite E in H. apply H. by apply Forall_forall.
Qed.

(** ** Velocity update and move *)

Lemma move_eq (p : Particle) (w : World) :
  move p w =
  (p, mkWorld (<[position p := Np.add (load (heap w) (position p)) (velocity p)]> (heap w))
        (cursor w)).
Proof. reflexivity. Qed.

Lemma iterate_particle_eq (rng : nat → float) (g : Np.array) (p : Particle) (w : World) :
  iterate_particle rng g p w =
  let v := new_velocity (rng (cursor w)) (rng (S (cursor w))) (velocity p)
             (load (heap w) (best_position p)) (load (heap w) (position p)) g in
  (mkParticle (position p) (best_position p) (best_position_value p) v,
   mkWorld (<[position p := Np.add (load (heap w) (position p)) v]> (heap w))
     (S (S (cursor w)))).
Proof. reflexivity. Qed.

Lemma iterate_loop_keep (rng : nat → float) (g : Np.array) (ps : list Particle) (w : World) :
  Forall2 iter_keep ps (for_each (iterate_particle rng g) ps w).1
  ∧ length (heap (for_each (iterate_particle rng g) ps w).2) = length (heap w).
Proof.
  apply (for_each_rel (iterate_particle rng g) (λ _, True) iter_keep
           (λ w w', length (heap w') = length (heap w))).
  - done.
  - intros w1 w2 w3 H12 H23. congruence.
  - intros x w0 _. rewrite iterate_particle_eq. simpl.
    split; [done | by rewrite length_insert].
  - by apply Forall_forall.
Qed.

Lemma iterate_loop_cursor (rng : nat → float) (g : Np.array) (ps : list Particle) (w : World) :
  cursor (for_each (iterate_particle rng g) ps w).2 = cursor w + 2 * length ps.
Proof.
  revert w. induction ps as [|p ps IH]; intros w; [simpl; lia|].
  rewrite for_each_cons. cbn [fst snd]. rewrite IH, iterate_particle_eq. simpl. lia.
Qed.

(** The loop writes only to the [position] arrays of its particles. *)
Lemma iterate_loop_frame (rng : nat → float) (g : Np.array) (ps : list Particle)
    (w : World) (l : loc) :
  Forall (λ q, position q ≠ l) ps →
  load (heap (for_each (iterate_particle rng g) ps w).2) l = load (heap w) l.
Proof.
  intros Hl.
  apply (for_each_rel (iterate_particle rng g) (λ q, position q ≠ l) (λ _ _, True)
           (λ w w', load (heap w') l = load (heap w) l)); [done | | | done].
  - intros w1 w2 w3 H12 H23. congruence.
  - intros x w0 Hx. rewrite iterate_particle_eq. simpl.
    split; [done | by apply load_insert_ne].
Qed.

Lemma iterate_loop_spec (rng : nat → float) (g : Np.array) (ps : list Particle) (w : World) :
  swarm_ok (heap w) ps →
  ∀ i p, ps !! i = Some p →
    ∃ p', (for_each (iterate_particle rng g) ps w).1 !! i = Some p'
      ∧ velocity p' =
          new_velocity (rng (cursor w + 2 * i)) (rng (cursor w + 2 * i + 1)) (velocity p)
            (load (heap w) (best_position p)) (load (heap w) (position p)) g
      ∧ position p' = position p
      ∧ load (heap (for_each (iterate_particle rng g) ps w).2) (position p') =
          Np.add (load (heap w) (position p)) (velocity p').
Proof.
  revert w. induction ps as [|p0 ps IH]; intros w [Hvalid Hsep] i p Hi; [done|].
  apply Forall_cons in Hvalid as [[Hpos0 Hbest0] Hvalid].
  destruct Hsep as [Hsep0 Hsep].
  rewrite for_each_cons. cbn [fst snd].
  destruct i as [|i]; simpl in Hi.
  - injection Hi as <-. eexists. split; [done|].
    rewrite iterate_loop_frame, iterate_particle_eq; simpl.
    + replace (cursor w + 0) with (cursor w) by lia.
      replace (cursor w + 1) with (S (cursor w)) by lia.
      repeat split. by rewrite load_insert_eq.
    + eapply Forall_impl; [exact Hsep0|]. simpl. intros q (Hq & _). exact Hq.
  - pose proof (proj1 (Forall_forall _ _) Hsep0 p
                  (proj2 (list_elem_of_lookup _ _) (ex_intro _ i Hi))) as (Hp1 & Hp2 & Hp3).
    destruct (IH (iterate_particle rng g p0 w).2) with (i := i) (p := p)
      as (p' & Hlook & Hvel & Hpos & Hload); [|done|].
    { split; [|done].
      eapply Forall_impl; [exact Hvalid|].
      intros q [Hq1 Hq2]. rewrite iterate_particle_eq. simpl.
      unfold valid_particle. by rewrite length_insert. }
    assert (Hc : cursor (iterate_particle rng g p0 w).2 = S (S (cursor w)))
      by by rewrite iterate_particle_eq.
    assert (Hl : ∀ l, position p0 ≠ l →
              load (heap (iterate_particle rng g p0 w).2) l = load (heap w) l).
    { intros l Hne. rewrite iterate_particle_eq. simpl. by apply load_insert_ne. }
    assert (Hp1' : position p0 ≠ position p) by (intros E; by apply Hp1).
    rewrite Hc, (Hl (best_position p)), (Hl (position p)) in Hvel by assumption.
    rewrite (Hl (position p)) in Hload by assumption.
    exists p'. split; [done|].
    replace (cursor w + 2 * S i) with (S (S (cursor w)) + 2 * i) by lia.
    split; [exact Hvel|]. split; [exact Hpos | exact Hload].
Qed.

(** C1. In [iterate_particles], every particle gets the velocity
    [0.5 * velocity + (0.65 * r1) * (best_position - position)
     + (1.0 * r2) * (global_best_position - position)],
    where [r1] and [r2] are the next two numbers of the generator, each one
    scalar used for both axes, and the weights are the constants of the
    module; the particle is then moved: its position becomes its old
    position plus the new velocity. *)
Theorem iterate_particles_velocity (rng : nat → float) (s : SearchSpace) (w : World) :
  swarm_ok (heap w) (particles s) →
  (CURRENT_COMPENSATION = 0.5%float
   ∧ PERSONAL_BEST_COMPENSATION = 0x1.4cccccccccccdp-1%float
   ∧ GLOBAL_BEST_COMPENSATION = 1.0%float)
  ∧ cursor (iterate_particles rng s w).2 = cursor w + 2 * length (particles s)
  ∧ ∀ i p, particles s !! i = Some p →
      ∃ p', particles (iterate_particles rng s w).1 !! i = Some p'
        ∧ velocity p' =
            new_velocity (rng (cursor w + 2 * i)) (rng (cursor w + 2 * i + 1))
              (velocity p) (load (heap w) (best_position p))
              (load (heap w) (position p)) (global_best_position s)
        ∧ position p' = position p
        ∧ load (heap (iterate_particles rng s w).2) (position p') =
            Np.add (load (heap w) (position p)) (velocity p').
Proof.
  intros Hok. split; [done|].
  unfold iterate_particles, bind, ret.
  pose proof (iterate_loop_cursor rng (global_best_position s) (particles s) w) as Hc.
  pose proof (iterate_loop_spec rng (global_best_position s) (particles s) w Hok) as Hs.
  destruct (for_each _ _ w) as [ps w']. simpl in *.
  split; [done|]. exact Hs.
Qed.

(** ** One pass of the main loop *)

Lemma loop_body_eq (rng : nat → float) (st : Run) (w : World) :
  loop_body rng st w =
  let r1 := update_particle_best (SEARCH_SPACE st) w in
  let s2 := (update_global_best r1.1 r1.2).1 in
  if termination_condition s2 then
    (Break, mkRun s2 (I_ st) (FITNESS_RECORD st), r1.2)
  else
    let r3 := iterate_particles rng s2 r1.2 in
    (Continue,
     mkRun r3.1 (I_ st + 1) (FITNESS_RECORD st ++ [global_best_value r3.1]), r3.2).
Proof.
  unfold loop_body, bind, ret.
  destruct (update_particle_best (SEARCH_SPACE st) w) as [s1 w1]. simpl.
  destruct (termination_condition _); [done|].
  by destruct (iterate_particles rng _ w1).
Qed.

Lemma iterate_particles_keep (rng : nat → float) (s : SearchSpace) (w : World) :
  Forall2 iter_keep (particles s) (particles (iterate_particles rng s w).1)
  ∧ length (heap (iterate_particles rng s w).2) = length (heap w)
  ∧ global_best_value (iterate_particles rng s w).1 = global_best_value s
  ∧ global_best_position (iterate_particles rng s w).1 = global_best_position s.
Proof.
  unfold iterate_particles, bind, ret.
  pose proof (iterate_loop_keep rng (global_best_position s) (particles s) w) as H.
  destruct (for_each _ _ w) as [ps w']. simpl in *. by destruct H.
Qed.

(** Across one pass every particle keeps its [position] array and its best
    value does not go up. *)
Lemma loop_body_particles (rng : nat → float) (st : Run) (w : World) :
  Forall2 (λ p p', position p' = position p
                   ∧ not_above (best_position_value p') (best_position_value p))
    (particles (SEARCH_SPACE st))
    (particles (SEARCH_SPACE (loop_body rng st w).1.2)).
Proof.
  rewrite loop_body_eq. cbv zeta.
  destruct (update_particle_best_step (SEARCH_SPACE st) w) as [Hstep _].
  set (r1 := update_particle_best (SEARCH_SPACE st) w) in *.
  destruct (termination_condition _); simpl.
  - eapply Forall2_impl; [exact Hstep|]. by intros p p' (? & ? & ?).
  - eapply Forall2_trans;
      [| exact Hstep
       | exact (proj1 (iterate_particles_keep rng
                         (update_global_best r1.1 r1.2).1 r1.2))].
    intros p p1 p2 (Hp & _ & Hb) (Hp' & _ & Hb').
    split; [congruence | rewrite Hb'; exact Hb].
Qed.

(** ** The global best *)

Lemma fmin_not_above (a b : float) : not_above (fmin a b) a.
Proof. unfold fmin, not_above. destruct (b <? a)%float eqn:E; auto. Qed.

Lemma not_above_trans (a b c : float) : not_above a b → not_above b c → not_above a c.
Proof.
  intros [-> | Hab] [-> | Hbc]; unfold not_above; auto.
  right. by eapply FloatOrder.ltb_trans.
Qed.

Lemma not_above_leb (a b : float) :
  is_nan b = false → not_above a b → (a <=? b)%float = true.
Proof.
  intros Hb [-> | Hlt]; [by apply FloatOrder.leb_refl | by apply FloatOrder.ltb_leb].
Qed.

Lemma fmin_not_nan (a b : float) : is_nan a = false → is_nan (fmin a b) = false.
Proof.
  intros Ha. unfold fmin. destruct (b <? a)%float eqn:E; [|done].
  by eapply FloatOrder.ltb_not_nan.
Qed.

Lemma fold_fmin_not_above (l : list float) (a : float) :
  not_above (fold_left fmin l a) a.
Proof.
  revert a. induction l as [|x l IH]; intros a; simpl; [by left|].
  eapply not_above_trans; [apply IH | apply fmin_not_above].
Qed.

Lemma fold_fmin_not_nan (l : list float) (a : float) :
  is_nan a = false → is_nan (fold_left fmin l a) = false.
Proof.
  revert a. induction l as [|x l IH]; intros a Ha; simpl; [done|].
  by apply IH, fmin_not_nan.
Qed.

Lemma fold_fmin_attained (l : list float) (a : float) :
  fold_left fmin l a = a ∨ fold_left fmin l a ∈ l.
Proof.
  revert a. induction l as [|x l IH]; intros a; simpl; [by left|].
  destruct (IH (fmin a x)) as [-> | Hin].
  - unfold fmin. destruct (x <? a)%float; [right; left | by left].
  - right. by right.
Qed.

Lemma fmin_leb_candidate (a x : float) :
  is_nan a = false → is_nan x = false → (fmin a x <=? x)%float = true.
Proof.
  intros Ha Hx. unfold fmin. destruct (x <? a)%float eqn:E.
  - by apply FloatOrder.leb_refl.
  - by apply FloatOrder.leb_total.
Qed.

(** The fold is a lower bound of every candidate that is a number. *)
Lemma fold_fmin_lower (l : list float) (a f : float) :
  is_nan a = false → f ∈ l → is_nan f = false →
  (fold_left fmin l a <=? f)%float = true.
Proof.
  revert a. induction l as [|x l IH]; intros a Ha Hin Hf; [by inv Hin|].
  simpl. apply elem_of_cons in Hin as [Heq | Hin].
  - subst x. apply (FloatOrder.leb_trans _ (fmin a f)); [|by apply fmin_leb_candidate].
    apply not_above_leb; [by apply fmin_not_nan | apply fold_fmin_not_above].
  - apply IH; [by apply fmin_not_nan | done | done].
Qed.

Lemma fold_global_best_value (h : list Np.array) (ps : list Particle)
    (best : Np.array * float) :
  (fold_left (global_best_step h) ps best).2 =
  fold_left fmin (map (get_particle_fitness h) ps) best.2.
Proof.
  revert best. induction ps as [|p ps IH]; intros best; simpl; [done|].
  rewrite IH. f_equal. unfold global_best_step, fmin.
  by destruct (_ <? _)%float.
Qed.

(** The pair of the global best is left as it was, or it is the position
    and the fitness of one of the particles, and then the value went down. *)
Lemma fold_global_best_cases (h : list Np.array) (ps : list Particle)
    (best : Np.array * float) :
  fold_left (global_best_step h) ps best = best
  ∨ ∃ p, p ∈ ps
      ∧ fold_left (global_best_step h) ps best
        = (load h (position p), get_particle_fitness h p)
      ∧ (get_particle_fitness h p <? best.2)%float = true.
Proof.
  revert best. induction ps as [|p ps IH]; intros best; simpl; [by left|].
  assert (global_best_step h best p = best
          ∨ (global_best_step h best p = (load h (position p), get_particle_fitness h p)
             ∧ (get_particle_fitness h p <? best.2)%float = true)) as Hstep.
  { unfold global_best_step. destruct (_ <? _)%float; auto. }
  destruct (IH (global_best_step h best p)) as [-> | (q & Hq & -> & Hlt)].
  - destruct Hstep as [-> | [-> Hlt]]; [by left|].
    right. exists p. split; [left | done].
  - right. exists q. split; [by right|]. split; [done|].
    destruct Hstep as [Hb | [Hb Hlt']]; rewrite Hb in Hlt; [done|].
    by eapply FloatOrder.ltb_trans.
Qed.

Lemma update_global_best_eq (s : SearchSpace) (w : World) :
  update_global_best s w =
  (set_global_best s
     (fold_left (global_best_step (heap w)) (particles s)
        (global_best_position s, global_best_value s)), w).
Proof. reflexivity. Qed.

Lemma update_particle_best_keeps (s : SearchSpace) (w : World) :
  global_best_value (update_particle_best s w).1 = global_best_value s
  ∧ global_best_position (update_particle_best s w).1 = global_best_position s
  ∧ target (update_particle_best s w).1 = target s
  ∧ target_exit_boundary (update_particle_best s w).1 = target_exit_boundary s.
Proof.
  unfold update_particle_best, bind, ret.
  by destruct (for_each update_best (particles s) w).
Qed.

(** The global best value after a pass is the fold of [fmin] over what the
    pass observed, from the value before. *)
Lemma loop_body_global_best (rng : nat → float) (st : Run) (w : World) :
  global_best_value (SEARCH_SPACE (loop_body rng st w).1.2) =
  fold_left fmin (observed st w) (global_best_value (SEARCH_SPACE st)).
Proof.
  rewrite loop_body_eq. cbv zeta. unfold observed.
  destruct (update_particle_best_keeps (SEARCH_SPACE st) w) as (Hv & _).
  destruct (update_particle_best (SEARCH_SPACE st) w) as [s1 w1].
  cbn [fst snd] in *. rewrite <- Hv.
  assert (global_best_value (update_global_best s1 w1).1 =
          fold_left fmin (map (get_particle_fitness (heap w1)) (particles s1))
            (global_best_value s1)) as Hg.
  { rewrite update_global_best_eq. simpl. by rewrite fold_global_best_value. }
  destruct (termination_condition _); cbn [fst snd SEARCH_SPACE]; [done|].
  destruct (iterate_particles_keep rng (update_global_best s1 w1).1 w1) as (_ & _ & -> & _).
  done.
Qed.

Lemma start_eq (rng : nat → float) (c : Config) :
  start rng c =
  (mkRun (SearchSpace_init rng TARGET (TARGET_EXIT_BOUNDARY c) (NUM_PARTICLES c)
            empty_world).1 0 [],
   (SearchSpace_init rng TARGET (TARGET_EXIT_BOUNDARY c) (NUM_PARTICLES c)
      empty_world).2).
Proof. unfold start. by destruct (SearchSpace_init _ _ _ _ _). Qed.

Lemma SearchSpace_init_fields (rng : nat → float) (t b : float) (n : Z) (w : World) :
  global_best_value (SearchSpace_init rng t b n w).1 = infinity
  ∧ target (SearchSpace_init rng t b n w).1 = t
  ∧ target_exit_boundary (SearchSpace_init rng t b n w).1 = b
  ∧ num_particles (SearchSpace_init rng t b n w).1 = n.
Proof.
  unfold SearchSpace_init, bind, ret.
  destruct (replicateM _ _ w) as [ps w1].
  destruct (rand_coordinate rng w1) as [x w2].
  by destruct (rand_coordinate rng w2) as [y w3].
Qed.

Lemma reaches_global_best (rng : nat → float) (c : Config) (k : nat)
    (obs : list float) (x : flow * Run * World) :
  reaches rng c k obs x →
  global_best_value (SEARCH_SPACE x.1.2) = fold_left fmin obs infinity.
Proof.
  induction 1 as [|k obs st w Hreach IH Hguard].
  - rewrite start_eq. simpl. apply SearchSpace_init_fields.
  - rewrite loop_body_global_best, fold_left_app. simpl in IH. by rewrite IH.
Qed.

(** ** The main loop *)

Lemma loop_body_counter (rng : nat → float) (st : Run) (w : World) :
  match (loop_body rng st w).1.1 with
  | Break =>
      I_ (loop_body rng st w).1.2 = I_ st
      ∧ FITNESS_RECORD (loop_body rng st w).1.2 = FITNESS_RECORD st
  | Continue =>
      I_ (loop_body rng st w).1.2 = (I_ st + 1)%Z
      ∧ FITNESS_RECORD (loop_body rng st w).1.2 =
          FITNESS_RECORD st
          ++ [global_best_value (SEARCH_SPACE (loop_body rng st w).1.2)]
  end.
Proof. rewrite loop_body_eq. cbv zeta. by destruct (termination_condition _). Qed.

Lemma while_loop_unfold (rng : nat → float) (max : Z) (fuel : nat) (st : Run) (w : World) :
  while_loop rng max fuel st w =
  if (I_ st <? max)%Z then
    match fuel with
    | O => OutOfFuel
    | S fuel' =>
        match (loop_body rng st w).1.1 with
        | Break => Returned ((loop_body rng st w).1.2, (loop_body rng st w).2)
        | Continue =>
            while_loop rng max fuel' (loop_body rng st w).1.2 (loop_body rng st w).2
        end
    end
  else Returned (st, w).
Proof.
  destruct fuel; simpl; [done|].
  destruct (I_ st <? max)%Z; [|done].
  by destruct (loop_body rng st w) as [[[] st'] w'].
Qed.

(** The loop needs no more passes than the budget leaves. *)
Lemma while_loop_returns (rng : nat → float) (max : Z) (fuel : nat) (st : Run) (w : World) :
  Z.to_nat (max - I_ st) ≤ fuel →
  ∃ r, while_loop rng max fuel st w = Returned r.
Proof.
  revert st w. induction fuel as [|fuel IH]; intros st w Hfuel;
    rewrite while_loop_unfold; destruct (I_ st <? max)%Z eqn:Hguard; eauto.
  - apply Z.ltb_lt in Hguard. lia.
  - pose proof (loop_body_counter rng st w) as Hc.
    destruct ((loop_body rng st w).1.1); [eauto|].
    apply IH. apply Z.ltb_lt in Hguard. destruct Hc as [-> _]. lia.
Qed.

(** What holds when the loop is entered and is kept by every pass that
    the loop starts holds when the loop is left. *)
Lemma while_loop_invariant (rng : nat → float) (max : Z) (P : Run → World → Prop) :
  (∀ st w, P st w → (I_ st <? max)%Z = true →
           P (loop_body rng st w).1.2 (loop_body rng st w).2) →
  ∀ fuel st w r, P st w → while_loop rng max fuel st w = Returned r → P r.1 r.2.
Proof.
  intros Hstep fuel. induction fuel as [|fuel IH]; intros st w r HP;
    rewrite while_loop_unfold; destruct (I_ st <? max)%Z eqn:Hguard;
    try (intros [= <-]; done); try done.
  pose proof (Hstep st w HP Hguard) as HP'.
  destruct ((loop_body rng st w).1.1); [by intros [= <-] | by apply IH].
Qed.

Lemma main_eq (rng : nat → float) (c : Config) :
  main rng c =
  while_loop rng (MAX_ITERATIONS c) (Z.to_nat (MAX_ITERATIONS c))
    (start rng c).1 (start rng c).2.
Proof. unfold main. by destruct (start rng c). Qed.

Lemma start_counter (rng : nat → float) (c : Config) :
  I_ (start rng c).1 = 0%Z ∧ FITNESS_RECORD (start rng c).1 = [].
Proof. by rewrite start_eq. Qed.

(** The program returns, for every configuration and every generator. *)
Lemma main_returns (rng : nat → float) (c : Config) :
  ∃ r, main rng c = Returned r.
Proof.
  rewrite main_eq. apply while_loop_returns.
  destruct (start_counter rng c) as [-> _]. lia.
Qed.

(** The state the program returns is a state the run reaches. *)
Lemma while_loop_reaches (rng : nat → float) (c : Config) (fuel : nat) :
  ∀ k obs st w r,
    reaches rng c k obs (Continue, st, w) →
    while_loop rng (MAX_ITERATIONS c) fuel st w = Returned r →
    ∃ k' obs' fl, reaches rng c k' obs' (fl, r.1, r.2).
Proof.
  induction fuel as [|fuel IH]; intros k obs st w r Hreach;
    rewrite while_loop_unfold; destruct (I_ st <? MAX_ITERATIONS c)%Z eqn:Hguard;
    try done; try (intros [= <-]; eauto).
  pose proof (reaches_pass rng c k obs st w Hreach Hguard) as Hnext.
  destruct (loop_body rng st w) as [[[] st'] w'] eqn:E; cbn [fst snd].
  - intros [= <-]. eauto.
  - by eapply IH.
Qed.

Lemma main_reaches (rng : nat → float) (c : Config) (r : Run * World) :
  main rng c = Returned r → ∃ k obs fl, reaches rng c k obs (fl, r.1, r.2).
Proof.
  rewrite main_eq. apply (while_loop_reaches rng c _ 0 []).
  apply reaches_start.
Qed.

(** The counter and the record count the passes that went through. *)
Lemma reaches_counter (rng : nat → float) (c : Config) (k : nat)
    (obs : list float) (x : flow * Run * World) :
  reaches rng c k obs x →
  I_ x.1.2 = Z.of_nat (length (FITNESS_RECORD x.1.2))
  ∧ I_ x.1.2 = match x.1.1 with
               | Continue => Z.of_nat k
               | Break => (Z.of_nat k - 1)%Z
               end.
Proof.
  induction 1 as [|k obs st w Hreach IH Hguard].
  - cbn [fst snd]. by destruct (start_counter rng c) as [-> ->].
  - cbn [fst snd] in IH. destruct IH as [IH1 IH2].
    pose proof (loop_body_counter rng st w) as Hc.
    destruct ((loop_body rng st w).1.1); destruct Hc as [-> ->]; [lia|].
    rewrite length_app. simpl. lia.
Qed.

Lemma update_particle_best_cursor (s : SearchSpace) (w : World) :
  cursor (update_particle_best s w).2 = cursor w.
Proof. by destruct (update_particle_best_step s w) as [_ [_ ?]]. Qed.

(** C4. The termination condition holds exactly when
    [abs(target - global_best_value) <= target_exit_boundary].  A pass
    updates the personal bests, then the global best, then tests the
    condition; when it holds the loop is left at once: no number is drawn,
    no velocity and no position changes, and the counter and the record
    stay as they were.  Otherwise the particles are iterated and the loop
    goes on. *)
Theorem convergence_test (rng : nat → float) (st : Run) (w : World) :
  let r1 := update_particle_best (SEARCH_SPACE st) w in
  let s2 := (update_global_best r1.1 r1.2).1 in
  let r3 := iterate_particles rng s2 r1.2 in
  termination_condition s2
    = (abs (target s2 - global_best_value s2) <=? target_exit_boundary s2)%float
  ∧ if termination_condition s2 then
      loop_body rng st w = (Break, mkRun s2 (I_ st) (FITNESS_RECORD st), r1.2)
      ∧ cursor r1.2 = cursor w
      ∧ Forall2 (λ p p', position p' = position p ∧ velocity p' = velocity p
                         ∧ (position p < length (heap w) →
                            load (heap r1.2) (position p') = load (heap w) (position p)))
          (particles (SEARCH_SPACE st)) (particles s2)
      ∧ ∀ max fuel, (I_ st <? max)%Z = true →
          while_loop rng max (S fuel) st w =
          Returned (mkRun s2 (I_ st) (FITNESS_RECORD st), r1.2)
    else
      loop_body rng st w =
        (Continue,
         mkRun r3.1 (I_ st + 1) (FITNESS_RECORD st ++ [global_best_value r3.1]), r3.2)
      ∧ ∀ max fuel, (I_ st <? max)%Z = true →
          while_loop rng max (S fuel) st w =
          while_loop rng max fuel
            (mkRun r3.1 (I_ st + 1) (FITNESS_RECORD st ++ [global_best_value r3.1]))
            r3.2.
Proof.
  cbv zeta. split; [done|].
  pose proof (loop_body_eq rng st w) as Hbody. cbv zeta in Hbody.
  destruct (update_particle_best_step (SEARCH_SPACE st) w) as [Hstep Hgrow].
  destruct (termination_condition _) eqn:Hterm.
  - split; [done|]. split; [apply update_particle_best_cursor|]. split.
    + rewrite update_global_best_eq. cbn [fst particles set_global_best].
      eapply Forall2_impl; [exact Hstep|].
      intros p p' (Hp & Hv & _). repeat split; [done..|].
      intros Hvalid. rewrite Hp. by apply grows_load.
    + intros max fuel Hguard. by rewrite while_loop_unfold, Hguard, Hbody.
  - split; [done|].
    intros max fuel Hguard. by rewrite while_loop_unfold, Hguard, Hbody.
Qed.

(** C10. A pass in which the termination condition holds leaves the loop
    before the record is extended and before the counter is increased; a
    pass that goes through adds one to both.  So in every state of a run,
    and in the state the program returns, the counter [I] is the length of
    the fitness record, and both are the number of passes that went
    through: the pass that left the loop is not counted. *)
Theorem iteration_count (rng : nat → float) (c : Config) :
  (∃ r, main rng c = Returned r
        ∧ I_ r.1 = Z.of_nat (length (FITNESS_RECORD r.1)))
  ∧ (∀ st w,
       match (loop_body rng st w).1.1 with
       | Break =>
           I_ (loop_body rng st w).1.2 = I_ st
           ∧ FITNESS_RECORD (loop_body rng st w).1.2 = FITNESS_RECORD st
       | Continue =>
           I_ (loop_body rng st w).1.2 = (I_ st + 1)%Z
           ∧ FITNESS_RECORD (loop_body rng st w).1.2 =
               FITNESS_RECORD st
               ++ [global_best_value (SEARCH_SPACE (loop_body rng st w).1.2)]
       end)
  ∧ (∀ k obs x, reaches rng c k obs x →
       I_ x.1.2 = Z.of_nat (length (FITNESS_RECORD x.1.2))
       ∧ I_ x.1.2 = match x.1.1 with
                    | Continue => Z.of_nat k
                    | Break => (Z.of_nat k - 1)%Z
                    end).
Proof.
  split; [|split; [apply loop_body_counter | apply reaches_counter]].
  destruct (main_returns rng c) as [r Hr]. exists r. split; [done|].
  destruct (main_reaches rng c r Hr) as (k & obs & fl & Hreach).
  by destruct (reaches_counter rng c k obs _ Hreach) as [? _].
Qed.

(** C8. With a budget of zero iterations the loop body never runs: the
    program returns the state in which the loop was entered, with the
    particles where the constructor put them, a global best value of
    infinity, a counter of 0 and an empty record. *)
Theorem zero_iterations (rng : nat → float) (boundary : float) (n : Z) :
  main rng (mkConfig boundary n 0) = Returned (start rng (mkConfig boundary n 0))
  ∧ SEARCH_SPACE (start rng (mkConfig boundary n 0)).1 =
      (SearchSpace_init rng TARGET boundary n empty_world).1
  ∧ (start rng (mkConfig boundary n 0)).2 =
      (SearchSpace_init rng TARGET boundary n empty_world).2
  ∧ global_best_value (SEARCH_SPACE (start rng (mkConfig boundary n 0)).1) = infinity
  ∧ I_ (start rng (mkConfig boundary n 0)).1 = 0%Z
  ∧ FITNESS_RECORD (start rng (mkConfig boundary n 0)).1 = [].
Proof.
  rewrite main_eq, start_eq. cbn [fst snd MAX_ITERATIONS SEARCH_SPACE I_ FITNESS_RECORD
    TARGET_EXIT_BOUNDARY NUM_PARTICLES].
  rewrite while_loop_unfold. cbn [I_]. 
  repeat split. apply SearchSpace_init_fields.
Qed.

(** ** Replaying a run *)

Lemma replicateM_ext {A} (f g : M A) (n : nat) (w : World) :
  (∀ w, f w = g w) → replicateM n f w = replicateM n g w.
Proof.
  intros Hfg. revert w. induction n as [|n IH]; intros w; [done|].
  simpl. unfold bind. rewrite Hfg. destruct (g w) as [x w1]. by rewrite IH.
Qed.

Section SameNumbers.

Variables rng1 rng2 : nat → float.
Hypothesis same : ∀ n, rng1 n = rng2 n.

Lemma random_ext (w : World) : random rng1 w = random rng2 w.
Proof using same. unfold random. by rewrite same. Qed.

Lemma rand_coordinate_ext (w : World) : rand_coordinate rng1 w = rand_coordinate rng2 w.
Proof using same.
  unfold rand_coordinate, bind. rewrite random_ext.
  destruct (random rng2 w) as [s w1]. by rewrite random_ext.
Qed.

Lemma Particle_init_ext (w : World) : Particle_init rng1 w = Particle_init rng2 w.
Proof using same.
  unfold Particle_init, bind. rewrite rand_coordinate_ext.
  destruct (rand_coordinate rng2 w) as [x w1]. by rewrite rand_coordinate_ext.
Qed.

Lemma SearchSpace_init_ext (t b : float) (n : Z) (w : World) :
  SearchSpace_init rng1 t b n w = SearchSpace_init rng2 t b n w.
Proof using same.
  unfold SearchSpace_init, bind.
  rewrite (replicateM_ext _ _ _ _ Particle_init_ext).
  destruct (replicateM _ _ w) as [ps w1]. rewrite rand_coordinate_ext.
  destruct (rand_coordinate rng2 w1) as [x w2]. by rewrite rand_coordinate_ext.
Qed.

Lemma iterate_particles_ext (s : SearchSpace) (w : World) :
  iterate_particles rng1 s w = iterate_particles rng2 s w.
Proof using same.
  unfold iterate_particles, bind.
  rewrite (for_each_ext (iterate_particle rng1 (global_best_position s))
             (iterate_particle rng2 (global_best_position s))); [done|].
  intros p w0. by rewrite !iterate_particle_eq, !same.
Qed.

Lemma loop_body_ext (st : Run) (w : World) : loop_body rng1 st w = loop_body rng2 st w.
Proof using same. rewrite !loop_body_eq. cbv zeta. by rewrite iterate_particles_ext. Qed.

Lemma while_loop_ext (max : Z) (fuel : nat) (st : Run) (w : World) :
  while_loop rng1 max fuel st w = while_loop rng2 max fuel st w.
Proof using same.
  revert st w. induction fuel as [|fuel IH]; intros st w; [done|].
  rewrite !(while_loop_unfold _ _ (S fuel)), loop_body_ext.
  destruct (I_ st <? max)%Z; [|done].
  destruct ((loop_body rng2 st w).1.1); [done | apply IH].
Qed.

Lemma start_ext (c : Config) : start rng1 c = start rng2 c.
Proof using same. by rewrite !start_eq, SearchSpace_init_ext. Qed.

Lemma reaches_ext (c : Config) (k : nat) (obs : list float) (x : flow * Run * World) :
  reaches rng1 c k obs x → reaches rng2 c k obs x.
Proof using same.
  induction 1 as [|k obs st w Hreach IH Hguard].
  - rewrite start_ext. constructor.
  - rewrite loop_body_ext. by constructor.
Qed.

End SameNumbers.

(** C9. Two runs of the same configuration whose generators hand out the
    same numbers enter the loop in the same state, are in the same state
    after every pass (the store with every position, every velocity, the
    global best, the counter and the record), and return the same result. *)
Theorem replay (rng1 rng2 : nat → float) (c : Config) :
  (∀ n, rng1 n = rng2 n) →
  start rng1 c = start rng2 c
  ∧ (∀ k obs x, reaches rng1 c k obs x ↔ reaches rng2 c k obs x)
  ∧ main rng1 c = main rng2 c.
Proof.
  intros Hsame. split; [by apply start_ext|]. split.
  - intros k obs x. split; apply reaches_ext; [done | by intros n].
  - rewrite !main_eq, (start_ext rng1 rng2 Hsame). by apply while_loop_ext.
Qed.

(** ** Construction *)

Lemma rand_coordinate_eq (rng : nat → float) (w : World) :
  rand_coordinate rng w =
  (coordinate (rng (cursor w)) (rng (S (cursor w))),
   mkWorld (heap w) (S (S (cursor w)))).
Proof. reflexivity. Qed.

Lemma Particle_init_eq (rng : nat → float) (w : World) :
  Particle_init rng w =
  (mkParticle (length (heap w)) (length (heap w)) infinity (0%float, 0%float),
   mkWorld
     (heap w ++ [(coordinate (rng (cursor w)) (rng (S (cursor w))),
                  coordinate (rng (S (S (cursor w)))) (rng (S (S (S (cursor w))))))])
     (S (S (S (S (cursor w)))))).
Proof. reflexivity. Qed.

Lemma SearchSpace_init_particles (rng : nat → float) (t b : float) (n : Z) (w : World) :
  particles (SearchSpace_init rng t b n w).1 =
  (replicateM (Z.to_nat n) (Particle_init rng) w).1.
Proof.
  unfold SearchSpace_init, bind, ret.
  destruct (replicateM _ _ w) as [ps w1].
  destruct (rand_coordinate rng w1) as [x w2].
  by destruct (rand_coordinate rng w2) as [y w3].
Qed.

(** C5. [Particle.__init__] binds [best_position] to the array object of
    [position], not to a copy: a fresh particle that is moved by a
    velocity [v] reads its best position at the new position.  For the
    generator [sample], a swarm of one particle starts at (-25, 6.25), and
    after one call of [iterate_particles] its recorded best position reads
    (-6.25, -9.375) although no personal-best update has taken place. *)
Theorem fresh_particle_shares_storage :
  (∀ (rng : nat → float) (w : World),
     best_position (Particle_init rng w).1 = position (Particle_init rng w).1)
  ∧ (∀ (rng : nat → float) (w : World) (v : Np.array),
       let r := Particle_init rng w in
       let p := mkParticle (position r.1) (best_position r.1)
                  (best_position_value r.1) v in
       load (heap (move p r.2).2) (best_position p) =
       Np.add (load (heap r.2) (position r.1)) v)
  ∧ (let r0 := SearchSpace_init sample 2 0.125 1 empty_world in
     let r1 := iterate_particles sample r0.1 r0.2 in
     map (λ p, load (heap r0.2) (best_position p)) (particles r0.1)
       = [((-25)%float, 6.25%float)]
     ∧ map (λ p, load (heap r1.2) (best_position p)) (particles r1.1)
       = [((-6.25)%float, (-9.375)%float)]
     ∧ map best_position_value (particles r1.1) = [infinity]).
Proof.
  split; [done|]. split; [|by vm_compute].
  intros rng w v. cbv zeta. rewrite Particle_init_eq, move_eq.
  cbn [fst snd heap position best_position velocity].
  apply load_insert_eq. rewrite length_app. simpl. lia.
Qed.

(** ** Configurations *)

(** A negative exit boundary is never met. *)
Lemma negative_boundary (s : SearchSpace) :
  (target_exit_boundary s <? 0)%float = true → termination_condition s = false.
Proof.
  intros Hneg. unfold termination_condition.
  destruct (abs _ <=? _)%float eqn:E; [|done].
  apply FloatOrder.leb_abs_nonneg in E. congruence.
Qed.

(** C6. No configuration is rejected: for every configuration, also with
    fewer than one particle, a negative exit
    boundary or a budget of zero or fewer iterations, the program returns
    and raises no exception.  A particle count below one gives a swarm
    without particles, a budget of zero or less returns the state in which
    the loop was entered, and a negative exit boundary gives a termination
    condition that never holds. *)
Theorem no_validation (rng : nat → float) (c : Config) :
  (∃ r, main rng c = Returned r)
  ∧ (∀ e, main rng c = Raised e → False)
  ∧ ((NUM_PARTICLES c < 1)%Z → particles (SEARCH_SPACE (start rng c).1) = [])
  ∧ ((MAX_ITERATIONS c ≤ 0)%Z → main rng c = Returned (start rng c))
  ∧ ((TARGET_EXIT_BOUNDARY c <? 0)%float = true →
     ∀ s, target_exit_boundary s = TARGET_EXIT_BOUNDARY c →
          termination_condition s = false).
Proof.
  destruct (main_returns rng c) as [r Hr].
  split; [by exists r|]. split; [intros e; by rewrite Hr|].
  split; [|split].
  - intros Hn. rewrite start_eq. cbn [fst SEARCH_SPACE].
    rewrite SearchSpace_init_particles.
    by replace (Z.to_nat (NUM_PARTICLES c)) with 0 by lia.
  - intros Hmax. rewrite main_eq, while_loop_unfold.
    destruct (start_counter rng c) as [-> _].
    destruct (0 <? MAX_ITERATIONS c)%Z eqn:E; [apply Z.ltb_lt in E; lia|].
    by destruct (start rng c).
  - intros Hneg s Hs. apply negative_boundary. by rewrite Hs.
Qed.

(** C6, at two configurations.  With no particle and a negative exit
    boundary the program returns after one pass through the loop body; with a budget of
    zero iterations it returns a swarm of one particle.  Neither run raises
    an exception. *)
Lemma invalid_configurations_run :
  (∃ r, main quarters (mkConfig (-1) 0 1) = Returned r
        ∧ particles (SEARCH_SPACE r.1) = []
        ∧ I_ r.1 = 1%Z
        ∧ FITNESS_RECORD r.1 = [infinity])
  ∧ (∃ r, main quarters (mkConfig 0.5 1 0) = Returned r
          ∧ length (particles (SEARCH_SPACE r.1)) = 1
          ∧ I_ r.1 = 0%Z).
Proof. split; eexists; (split; [by vm_compute | by vm_compute]). Qed.

(** ** A particle at the origin *)

(** C7. A swarm of one particle that sits at (0, 0), with target 2 and exit
    boundary 0, before any best is recorded: the fitness of the particle is
    exactly 2, the first pass finds the termination condition true before
    it draws a number or changes a velocity, and the loop returns in that
    pass with a global best value of 2 (the counter and the record are as
    they were: the pass that leaves the loop is not counted). *)
Theorem origin_converges (rng : nat → float) (max : Z) (fuel : nat)
    (st : Run) (w : World) (p : Particle) :
  particles (SEARCH_SPACE st) = [p] →
  heap w !! position p = Some (0%float, 0%float) →
  best_position_value p = infinity →
  global_best_value (SEARCH_SPACE st) = infinity →
  target (SEARCH_SPACE st) = 2%float →
  target_exit_boundary (SEARCH_SPACE st) = 0%float →
  (I_ st <? max)%Z = true →
  get_particle_fitness (heap w) p = 2%float
  ∧ (loop_body rng st w).1.1 = Break
  ∧ ∃ st' w',
      while_loop rng max (S fuel) st w = Returned (st', w')
      ∧ global_best_value (SEARCH_SPACE st') = 2%float
      ∧ global_best_position (SEARCH_SPACE st') = (0%float, 0%float)
      ∧ termination_condition (SEARCH_SPACE st') = true
      ∧ cursor w' = cursor w
      ∧ map velocity (particles (SEARCH_SPACE st')) = [velocity p]
      ∧ map (λ q, load (heap w') (position q)) (particles (SEARCH_SPACE st'))
          = [(0%float, 0%float)]
      ∧ I_ st' = I_ st
      ∧ FITNESS_RECORD st' = FITNESS_RECORD st.
Proof.
  intros Hps Hpos Hbest Hgv Htarget Hbound Hguard.
  destruct (load_lookup _ _ _ Hpos) as [Hload Hvalid].
  assert (get_particle_fitness (heap w) p = 2%float) as Hfit
    by (unfold get_particle_fitness; by rewrite Hload).
  assert (update_particle_best (SEARCH_SPACE st) w =
          (set_particles (SEARCH_SPACE st)
             [mkParticle (position p) (length (heap w)) 2 (velocity p)],
           mkWorld (heap w ++ [(0%float, 0%float)]) (cursor w))) as Hupb.
  { unfold update_particle_best, bind, ret. rewrite Hps, for_each_cons.
    rewrite update_best_eq, Hfit, Hbest, Hload. by simpl. }
  pose proof (convergence_test rng st w) as Hconv. cbv zeta in Hconv.
  rewrite Hupb in Hconv. cbn [fst snd] in Hconv.
  rewrite update_global_best_eq in Hconv.
  cbn [fst snd set_particles particles global_best_position global_best_value
       heap fold_left] in Hconv.
  assert (global_best_step (heap w ++ [(0%float, 0%float)])
            (global_best_position (SEARCH_SPACE st), global_best_value (SEARCH_SPACE st))
            (mkParticle (position p) (length (heap w)) 2 (velocity p))
          = ((0%float, 0%float), 2%float)) as Hstep.
  { unfold global_best_step, get_particle_fitness. cbn [position snd].
    rewrite load_app_l, Hload, Hgv by done. by simpl. }
  rewrite Hstep in Hconv.
  unfold termination_condition, set_global_best, set_particles in Hconv.
  cbn [fst snd target target_exit_boundary global_best_value] in Hconv.
  rewrite Htarget, Hbound in Hconv.
  change (abs (2 - 2) <=? 0)%float with true in Hconv.
  destruct Hconv as (_ & Hbody & _ & _ & Hloop).
  split; [done|]. split; [by rewrite Hbody|].
  eexists _, _. split; [by apply Hloop|].
  cbn [SEARCH_SPACE I_ FITNESS_RECORD global_best_value global_best_position
       particles cursor heap map velocity position].
  rewrite load_app_l, Hload by done.
  by repeat split.
Qed.

(** ** The layout of the store in a run *)

Lemma layout_swarm_ok (n : nat) (h : list Np.array) (ps : list Particle) :
  layout n h ps → swarm_ok h ps.
Proof.
  intros (Hn & Hdup & Hall). split.
  - eapply Forall_impl; [exact Hall|]. intros p (Hp & Hb & _). split; [lia | done].
  - clear Hn. induction ps as [|p ps IH]; [done|].
    simpl in Hdup. apply NoDup_cons in Hdup as [Hnotin Hdup].
    apply Forall_cons in Hall as [(Hp & _ & Hbp) Hall].
    split; [|by apply IH].
    apply Forall_forall. intros q Hq.
    assert (position q ≠ position p) as Hne.
    { intros E. apply Hnotin. rewrite <- E. apply list_elem_of_fmap. by exists q. }
    pose proof (proj1 (Forall_forall _ _) Hall q Hq) as (Hq1 & _ & Hq3).
    repeat split; [done | |]; lia.
Qed.

Lemma well_placed_grows (n : nat) (w w' : World) (p : Particle) :
  grows w w' → well_placed n (heap w) p → well_placed n (heap w') p.
Proof.
  intros Hg (Hp & Hb & Hc). pose proof (grows_length _ _ Hg).
  repeat split; [done | lia | done].
Qed.

Lemma update_loop_grows (ps : list Particle) (w : World) :
  grows w (for_each update_best ps w).2.
Proof.
  apply (for_each_rel update_best (λ _, True) (λ _ _, True) grows
           grows_refl grows_trans); [|by apply Forall_forall].
  intros x w0 _. split; [done | apply update_best_step].
Qed.

Lemma update_loop_layout (n : nat) (ps : list Particle) (w : World) :
  n ≤ length (heap w) →
  Forall (well_placed n (heap w)) ps →
  Forall (well_placed n (heap (for_each update_best ps w).2))
    (for_each update_best ps w).1.
Proof.
  revert w. induction ps as [|p ps IH]; intros w Hn Hall; [done|].
  apply Forall_cons in Hall as [Hp Hall].
  rewrite for_each_cons. cbn [fst snd].
  assert (well_placed n (heap (update_best p w).2) (update_best p w).1) as Hp'.
  { rewrite update_best_eq. destruct (_ <? _)%float; [|done].
    destruct Hp as (Hp & _ & _).
    repeat split; simpl; [done | rewrite length_app; simpl; lia | by right]. }
  pose proof (proj2 (update_best_step p w)) as Hg.
  constructor.
  - eapply well_placed_grows; [apply update_loop_grows | done].
  - apply IH; [pose proof (grows_length _ _ Hg); lia|].
    eapply Forall_impl; [exact Hall|]. intros q. by apply well_placed_grows.
Qed.

Lemma Forall2_positions (R : Particle → Particle → Prop) (ps ps' : list Particle) :
  (∀ p p', R p p' → position p' = position p) →
  Forall2 R ps ps' → map position ps' = map position ps.
Proof. intros HR. induction 1; simpl; [done|]. f_equal; auto. Qed.

Lemma update_particle_best_layout (n : nat) (s : SearchSpace) (w : World) :
  layout n (heap w) (particles s) →
  layout n (heap (update_particle_best s w).2) (particles (update_particle_best s w).1).
Proof.
  intros (Hn & Hdup & Hall).
  destruct (update_particle_best_step s w) as [Hstep Hgrow].
  pose proof (update_loop_layout n (particles s) w Hn Hall) as Hloop.
  split; [pose proof (grows_length _ _ Hgrow); lia|]. split.
  - rewrite (Forall2_positions best_step (particles s)); [done | | done].
    by intros p p' (? & _).
  - revert Hloop. unfold update_particle_best, bind, ret.
    by destruct (for_each update_best (particles s) w).
Qed.

Lemma iterate_particles_layout (rng : nat → float) (n : nat) (s : SearchSpace) (w : World) :
  layout n (heap w) (particles s) →
  layout n (heap (iterate_particles rng s w).2) (particles (iterate_particles rng s w).1).
Proof.
  intros (Hn & Hdup & Hall).
  destruct (iterate_particles_keep rng s w) as (Hkeep & Hlen & _).
  split; [lia|]. split.
  - rewrite (Forall2_positions iter_keep (particles s)); [done | | done].
    by intros p p' (? & _).
  - apply Forall_forall. intros p' Hp'.
    apply list_elem_of_lookup in Hp' as [i Hi].
    destruct (Forall2_lookup_r _ _ _ _ _ Hkeep Hi) as (p & Hp & Hpos & Hbest & _).
    pose proof (proj1 (Forall_forall _ _) Hall p
                  (proj2 (list_elem_of_lookup _ _) (ex_intro _ i Hp))) as (H1 & H2 & H3).
    unfold well_placed. rewrite Hpos, Hbest, Hlen. done.
Qed.

Lemma loop_body_layout (rng : nat → float) (n : nat) (st : Run) (w : World) :
  layout n (heap w) (particles (SEARCH_SPACE st)) →
  layout n (heap (loop_body rng st w).2)
    (particles (SEARCH_SPACE (loop_body rng st w).1.2)).
Proof.
  intros Hlay. rewrite loop_body_eq. cbv zeta.
  pose proof (update_particle_best_layout n _ w Hlay) as H1.
  destruct (termination_condition _); cbn [fst snd SEARCH_SPACE]; [done|].
  by apply iterate_particles_layout.
Qed.

Lemma replicateM_init (rng : nat → float) (n : nat) (w : World) :
  length (heap (replicateM n (Particle_init rng) w).2) = length (heap w) + n
  ∧ map position (replicateM n (Particle_init rng) w).1 = seq (length (heap w)) n
  ∧ Forall (λ p, best_position p = position p ∧ best_position_value p = infinity)
      (replicateM n (Particle_init rng) w).1.
Proof.
  revert w. induction n as [|n IH]; intros w; [simpl; by rewrite Nat.add_0_r|].
  simpl. unfold bind, ret. rewrite Particle_init_eq.
  match goal with |- context [replicateM n _ ?w1] =>
    destruct (IH w1) as (Hlen & Hpos & Hall); destruct (replicateM n _ w1) as [ps w2]
  end.
  cbn [fst snd heap position map] in *.
  rewrite length_app in Hlen, Hpos. simpl in Hlen, Hpos.
  split; [lia|]. split.
  - simpl. f_equal. by rewrite Hpos, Nat.add_1_r.
  - by constructor.
Qed.

Lemma start_layout (rng : nat → float) (c : Config) :
  layout (Z.to_nat (NUM_PARTICLES c)) (heap (start rng c).2)
    (particles (SEARCH_SPACE (start rng c).1))
  ∧ Forall (λ p, best_position_value p = infinity)
      (particles (SEARCH_SPACE (start rng c).1)).
Proof.
  rewrite start_eq. cbn [fst snd SEARCH_SPACE].
  rewrite SearchSpace_init_particles.
  assert (heap (SearchSpace_init rng TARGET (TARGET_EXIT_BOUNDARY c)
                  (NUM_PARTICLES c) empty_world).2
          = heap (replicateM (Z.to_nat (NUM_PARTICLES c)) (Particle_init rng)
                    empty_world).2) as ->.
  { unfold SearchSpace_init, bind, ret.
    by destruct (replicateM _ _ empty_world) as [ps w1]. }
  destruct (replicateM_init rng (Z.to_nat (NUM_PARTICLES c)) empty_world)
    as (Hlen & Hpos & Hall).
  simpl in Hlen, Hpos.
  split; [|eapply Forall_impl; [exact Hall|]; by intros p [_ ?]].
  split; [lia|]. split; [rewrite Hpos; apply NoDup_seq|].
  apply Forall_forall. intros p Hp.
  pose proof (proj1 (Forall_forall _ _) Hall p Hp) as [Hb _].
  assert (position p ∈ seq 0 (Z.to_nat (NUM_PARTICLES c))) as Hin
    by (rewrite <- Hpos; apply list_elem_of_fmap; by exists p).
  apply elem_of_seq in Hin.
  unfold well_placed. rewrite Hb. repeat split; [lia..| by left].
Qed.

(** In every state a run reaches, the arrays of the particles are
    allocated and no [position] array is shared between particles. *)
Lemma reaches_swarm_ok (rng : nat → float) (c : Config) (k : nat)
    (obs : list float) (x : flow * Run * World) :
  reaches rng c k obs x →
  swarm_ok (heap x.2) (particles (SEARCH_SPACE x.1.2)).
Proof.
  intros Hreach. apply (layout_swarm_ok (Z.to_nat (NUM_PARTICLES c))).
  induction Hreach as [|k obs st w Hreach IH Hguard].
  - apply start_layout.
  - by apply loop_body_layout.
Qed.

(** What a pass observes is the fitness of every particle at the position
    it has when the pass starts. *)
Lemma observed_current (st : Run) (w : World) :
  Forall (valid_particle (heap w)) (particles (SEARCH_SPACE st)) →
  observed st w = map (get_particle_fitness (heap w)) (particles (SEARCH_SPACE st)).
Proof.
  intros Hvalid. unfold observed.
  destruct (update_particle_best_step (SEARCH_SPACE st) w) as [Hstep Hgrow].
  destruct (update_particle_best (SEARCH_SPACE st) w) as [s1 w1]. cbn [fst snd] in *.
  induction Hstep as [|p p' ps ps' (Hpos & _) Hstep IH]; [done|].
  apply Forall_cons in Hvalid as [[Hp _] Hvalid].
  simpl. f_equal; [|by apply IH].
  unfold get_particle_fitness. rewrite Hpos. by rewrite (grows_load w w1).
Qed.


(** C2. In every state a run reaches, the global best value is the minimum
    ([fmin] folded from infinity) of the fitness values computed by the
    global-best updates of all passes so far, each at a particle's current
    position: it is a lower bound of all of them, it is one of them unless
    it is still infinity, and the next pass does not raise it; what the
    next pass will observe is the fitness of every particle at the position
    the particle then has, whatever its personal best is.  One call of
    [update_global_best] folds [fmin] over the fitness at the current
    position of every particle and, when the value went down, binds the
    global best position to the position of the particle that gave it. *)
Theorem global_best_minimum (rng : nat → float) (c : Config) (k : nat)
    (obs : list float) (x : flow * Run * World) :
  reaches rng c k obs x →
  let g := global_best_value (SEARCH_SPACE x.1.2) in
  g = fold_left fmin obs infinity
  ∧ is_nan g = false
  ∧ (g = infinity ∨ g ∈ obs)
  ∧ (∀ f, f ∈ obs → is_nan f = false → (g <=? f)%float = true)
  ∧ (global_best_value (SEARCH_SPACE (loop_body rng x.1.2 x.2).1.2) <=? g)%float = true
  ∧ observed x.1.2 x.2
      = map (get_particle_fitness (heap x.2)) (particles (SEARCH_SPACE x.1.2))
  ∧ (∀ (s : SearchSpace) (w : World),
       let s' := (update_global_best s w).1 in
       (update_global_best s w).2 = w
       ∧ particles s' = particles s
       ∧ global_best_value s' =
           fold_left fmin (map (get_particle_fitness (heap w)) (particles s))
             (global_best_value s)
       ∧ ((global_best_position s', global_best_value s')
            = (global_best_position s, global_best_value s)
          ∨ ∃ p, p ∈ particles s
              ∧ global_best_value s' = get_particle_fitness (heap w) p
              ∧ global_best_position s' = load (heap w) (position p)
              ∧ (global_best_value s' <? global_best_value s)%float = true)).
Proof.
  intros Hreach. cbv zeta.
  pose proof (reaches_global_best rng c k obs x Hreach) as Hg.
  assert (is_nan (global_best_value (SEARCH_SPACE x.1.2)) = false) as Hnan
    by (rewrite Hg; by apply fold_fmin_not_nan).
  split; [done|]. split; [done|].
  split; [rewrite Hg; apply fold_fmin_attained|].
  split; [intros f Hf Hnf; rewrite Hg; by apply fold_fmin_lower|].
  split.
  { rewrite loop_body_global_best.
    apply not_above_leb; [done | apply fold_fmin_not_above]. }
  split; [apply observed_current; by apply (reaches_swarm_ok rng c k obs)|].
  intros s w. rewrite update_global_best_eq. cbn [fst snd].
  split; [done|]. split; [done|].
  split; [simpl; by rewrite fold_global_best_value|].
  destruct (fold_global_best_cases (heap w) (particles s)
              (global_best_position s, global_best_value s))
    as [-> | (p & Hp & -> & Hlt)]; [by left|].
  right. exists p. by repeat split.
Qed.

(** In every state a run reaches, every recorded best value is a number
    (infinity included), so that the comparison [<=] applies to it. *)
Lemma reaches_best_not_nan (rng : nat → float) (c : Config) (k : nat)
    (obs : list float) (x : flow * Run * World) :
  reaches rng c k obs x →
  Forall (λ p, is_nan (best_position_value p) = false)
    (particles (SEARCH_SPACE x.1.2)).
Proof.
  induction 1 as [|k obs st w Hreach IH Hguard].
  - eapply Forall_impl; [apply start_layout|]. intros p Hp. simpl in Hp. by rewrite Hp.
  - cbn [fst snd] in *. apply Forall_forall. intros p' Hp'.
    apply list_elem_of_lookup in Hp' as [i Hi].
    destruct (Forall2_lookup_r _ _ _ _ _ (loop_body_particles rng st w) Hi)
      as (p & Hp & _ & Hstep).
    pose proof (proj1 (Forall_forall _ _) IH p
                  (proj2 (list_elem_of_lookup _ _) (ex_intro _ i Hp))) as Hnan.
    destruct Hstep as [-> | Hlt]; [done | by eapply FloatOrder.ltb_not_nan].
Qed.

(** What the loop of [update_particle_best] makes of each particle, given
    the point [G] and the fitness [F] the particle has when the loop starts:
    a particle whose fitness is strictly below its best value gets that
    fitness as best value and a new object holding the point as best
    position; any other particle is left as it is. *)
Lemma update_loop_exact (G : Particle → Np.array) (F : Particle → float)
    (ps : list Particle) (w : World) :
  Forall (λ q, position q < length (heap w)
               ∧ load (heap w) (position q) = G q
               ∧ get_particle_fitness (heap w) q = F q) ps →
  Forall2 (λ p p',
             if (F p <? best_position_value p)%float
             then p' = mkParticle (position p) (best_position p') (F p) (velocity p)
                  ∧ length (heap w) ≤ best_position p'
                  ∧ best_position p' < length (heap (for_each update_best ps w).2)
                  ∧ load (heap (for_each update_best ps w).2) (best_position p') = G p
             else p' = p)
    ps (for_each update_best ps w).1.
Proof.
  revert w. induction ps as [|p ps IH]; intros w Hall; [constructor|].
  apply Forall_cons in Hall as [(Hp & HG & HF) Hall].
  rewrite for_each_cons. cbn [fst snd].
  pose proof (proj2 (update_best_step p w)) as Hg1.
  pose proof (update_loop_grows ps (update_best p w).2) as Hg2.
  pose proof (grows_length _ _ Hg1) as Hl1.
  pose proof (grows_length _ _ Hg2) as Hl2.
  constructor.
  - destruct (F p <? best_position_value p)%float eqn:E.
    + assert (update_best p w =
              (mkParticle (position p) (length (heap w)) (F p) (velocity p),
               mkWorld (heap w ++ [G p]) (cursor w))) as Hupd
        by (by rewrite update_best_eq, HF, E, HG).
      rewrite Hupd in *. cbn [fst snd heap best_position] in *.
      rewrite length_app in Hl2. simpl in Hl2.
      repeat split; [lia | lia |].
      rewrite (grows_load _ _ _ Hg2); [apply load_app_new|].
      cbn [heap]. rewrite length_app. simpl. lia.
    + by rewrite update_best_eq, HF, E.
  - eapply Forall2_impl.
    + apply IH. eapply Forall_impl; [exact Hall|]. intros q (Hq & HGq & HFq).
      split; [lia|]. split.
      * by rewrite (grows_load _ _ _ Hg1 Hq).
      * unfold get_particle_fitness. rewrite (grows_load _ _ _ Hg1 Hq). exact HFq.
    + intros q q' Hq. simpl in Hq. destruct (F q <? best_position_value q)%float; [|done].
      destruct Hq as (? & ? & ? & ?). repeat split; [done | lia | done | done].
Qed.

Lemma update_particle_best_exact (s : SearchSpace) (w : World) :
  Forall (valid_particle (heap w)) (particles s) →
  Forall2 (λ p p',
             if (get_particle_fitness (heap w) p <? best_position_value p)%float
             then p' = mkParticle (position p) (best_position p')
                         (get_particle_fitness (heap w) p) (velocity p)
                  ∧ length (heap w) ≤ best_position p'
                  ∧ best_position p' < length (heap (update_particle_best s w).2)
                  ∧ load (heap (update_particle_best s w).2) (best_position p')
                    = load (heap w) (position p)
             else p' = p)
    (particles s) (particles (update_particle_best s w).1).
Proof.
  intros Hvalid.
  pose proof (update_loop_exact (λ q, load (heap w) (position q))
                (get_particle_fitness (heap w)) (particles s) w) as H.
  unfold update_particle_best, bind, ret.
  destruct (for_each update_best (particles s) w) as [ps1 w1]. cbn [fst snd] in *.
  apply H. eapply Forall_impl; [exact Hvalid|]. by intros q [? _].
Qed.

(** C3. [update_particle_best] changes the record of a particle exactly
    when the fitness at the particle's current position is strictly smaller
    than its recorded best value: the best value becomes that fitness and
    the best position a new array object holding a copy of the position,
    which a later move does not change; every other particle is left as it
    is.  So after a pass the best value of a particle is the smaller of its
    fitness and its old best value: it never goes up, and [<=] holds in
    every state a run reaches. *)
Theorem personal_best_update :
  (∀ (s : SearchSpace) (w : World),
     Forall (valid_particle (heap w)) (particles s) →
     ∀ i p, particles s !! i = Some p →
       ∃ p', particles (update_particle_best s w).1 !! i = Some p'
         ∧ if (get_particle_fitness (heap w) p <? best_position_value p)%float
           then p' = mkParticle (position p) (best_position p')
                       (get_particle_fitness (heap w) p) (velocity p)
                ∧ length (heap w) ≤ best_position p'
                ∧ best_position p' < length (heap (update_particle_best s w).2)
                ∧ load (heap (update_particle_best s w).2) (best_position p')
                  = load (heap w) (position p)
           else p' = p)
  ∧ (∀ (rng : nat → float) (st : Run) (w : World),
       Forall (valid_particle (heap w)) (particles (SEARCH_SPACE st)) →
       ∀ i p, particles (SEARCH_SPACE st) !! i = Some p →
         ∃ p', particles (SEARCH_SPACE (loop_body rng st w).1.2) !! i = Some p'
           ∧ best_position_value p' =
               if (get_particle_fitness (heap w) p <? best_position_value p)%float
               then get_particle_fitness (heap w) p
               else best_position_value p)
  ∧ (∀ (p : Particle) (w : World),
     update_best p w =
     if (get_particle_fitness (heap w) p <? best_position_value p)%float then
       (mkParticle (position p) (length (heap w))
          (get_particle_fitness (heap w) p) (velocity p),
        mkWorld (heap w ++ [load (heap w) (position p)]) (cursor w))
     else (p, w))
  ∧ (∀ (p : Particle) (w : World),
       (get_particle_fitness (heap w) p <? best_position_value p)%float = true →
       position p < length (heap w) →
       let r := update_best p w in
       best_position_value r.1 = get_particle_fitness (heap w) p
       ∧ load (heap r.2) (best_position r.1) = load (heap w) (position p)
       ∧ (best_position r.1 =? position r.1) = false
       ∧ load (heap (move r.1 r.2).2) (best_position r.1) = load (heap w) (position p))
  ∧ (∀ (rng : nat → float) (st : Run) (w : World),
       Forall2 (λ p p', not_above (best_position_value p') (best_position_value p))
         (particles (SEARCH_SPACE st))
         (particles (SEARCH_SPACE (loop_body rng st w).1.2)))
  ∧ (∀ (rng : nat → float) (st : Run) (w : World),
       Forall2 (λ p p', is_nan (best_position_value p) = false →
                        (best_position_value p' <=? best_position_value p)%float = true)
         (particles (SEARCH_SPACE st))
         (particles (SEARCH_SPACE (loop_body rng st w).1.2)))
  ∧ (∀ (rng : nat → float) (c : Config) (k : nat) (obs : list float)
       (x : flow * Run * World),
       reaches rng c k obs x →
       Forall2 (λ p p',
                  (best_position_value p' <=? best_position_value p)%float = true)
         (particles (SEARCH_SPACE x.1.2))
         (particles (SEARCH_SPACE (loop_body rng x.1.2 x.2).1.2))).
Proof.
  split.
  { intros s w Hvalid i p Hi.
    destruct (Forall2_lookup_l _ _ _ _ _ (update_particle_best_exact s w Hvalid) Hi)
      as (p' & Hi' & Hp'). by exists p'. }
  split.
  { intros rng st w Hvalid i p Hi.
    destruct (Forall2_lookup_l _ _ _ _ _
                (update_particle_best_exact (SEARCH_SPACE st) w Hvalid) Hi)
      as (p1 & Hi1 & Hp1).
    assert (best_position_value p1 =
            if (get_particle_fitness (heap w) p <? best_position_value p)%float
            then get_particle_fitness (heap w) p else best_position_value p) as Hval.
    { destruct (_ <? _)%float; [|by subst p1]. destruct Hp1 as [-> _]. done. }
    rewrite <- Hval. clear Hval Hp1.
    rewrite loop_body_eq. cbv zeta.
    set (r1 := update_particle_best (SEARCH_SPACE st) w) in *.
    destruct (termination_condition _); cbn [fst snd SEARCH_SPACE].
    - exists p1. split; [|done]. by rewrite update_global_best_eq.
    - assert (particles (update_global_best r1.1 r1.2).1 !! i = Some p1) as Hi2
        by by rewrite update_global_best_eq.
      destruct (Forall2_lookup_l _ _ _ _ _
                  (proj1 (iterate_particles_keep rng
                            (update_global_best r1.1 r1.2).1 r1.2)) Hi2)
        as (p3 & Hi3 & _ & _ & Hv).
      by exists p3. }
  split; [exact update_best_eq|].
  split.
  { intros p w Hlt Hvalid. rewrite update_best_eq, Hlt. cbn [fst snd].
    rewrite move_eq. cbn [fst snd heap position best_position best_position_value].
    rewrite load_insert_ne by lia. rewrite load_app_new.
    repeat split. apply Nat.eqb_neq. lia. }
  split; [|split].
  - intros rng st w.
    eapply Forall2_impl; [apply loop_body_particles|]. by intros p p' [_ ?].
  - intros rng st w.
    eapply Forall2_impl; [apply loop_body_particles|].
    intros p p' [_ Hstep] Hnan. by apply not_above_leb.
  - intros rng c k obs x Hreach.
    pose proof (reaches_best_not_nan rng c k obs x Hreach) as Hnan.
    pose proof (loop_body_particles rng x.1.2 x.2) as Hstep.
    apply Forall2_same_length_lookup_2; [by eapply Forall2_length|].
    intros i p p' Hp Hp'.
    destruct (Forall2_lookup_lr _ _ _ _ _ _ Hstep Hp Hp') as [_ Hab].
    apply not_above_leb; [|done].
    apply (proj1 (Forall_forall _ _) Hnan p).
    apply list_elem_of_lookup. by exists i.
Qed.

(** The personal-best update on the swarm of two particles that the
    generator [sample] builds: both particles get their fitness as best
    value and a new object as best position. *)
Lemma personal_best_update_witness :
  let r0 := SearchSpace_init sample 2 0.125 2 empty_world in
  Forall (valid_particle (heap r0.2)) (particles r0.1)
  ∧ particles r0.1 !! 1 = Some (mkParticle 1 1 infinity (0%float, 0%float))
  ∧ ∃ p', particles (update_particle_best r0.1 r0.2).1 !! 1 = Some p'
      ∧ p' = mkParticle 1 (best_position p') 783.25 (0%float, 0%float)
      ∧ 2 ≤ best_position p'
      ∧ load (heap (update_particle_best r0.1 r0.2).2) (best_position p')
        = (12.5%float, (-25)%float).
Proof.
  cbv zeta.
  assert (Forall (valid_particle (heap (SearchSpace_init sample 2 0.125 2 empty_world).2))
            (particles (SearchSpace_init sample 2 0.125 2 empty_world).1)) as Hv.
  { vm_compute. repeat (split || constructor); lia. }
  split; [exact Hv|]. split; [by vm_compute|].
  destruct (proj1 personal_best_update _ _ Hv 1
              (mkParticle 1 1 infinity (0%float, 0%float)) eq_refl)
    as (p' & Hp' & Hcase).
  exists p'. split; [exact Hp'|].
  destruct Hcase as (Heq & Hlo & _ & Hload).
  split; [exact Heq|]. split; [exact Hlo | exact Hload].
Defined.

(** A run is in one state after a given number of passes. *)
Lemma reaches_functional (rng : nat → float) (c : Config) (k : nat)
    (obs obs' : list float) (x x' : flow * Run * World) :
  reaches rng c k obs x → reaches rng c k obs' x' → obs = obs' ∧ x = x'.
Proof.
  intros H. revert obs' x'.
  induction H as [|k obs st w Hreach IH Hguard]; intros obs' x' H'.
  - by inv H'.
  - inv H'.
    match goal with H : reaches _ _ k _ _ |- _ => destruct (IH _ _ H) as [-> [= -> ->]] end.
    done.
Qed.

(** ** The theorems at concrete inputs *)

(** One call of [iterate_particles] on the swarm of two particles that the
    generator [sample] builds. *)
Lemma iterate_particles_velocity_witness :
  let r0 := SearchSpace_init sample 2 0.125 2 empty_world in
  swarm_ok (heap r0.2) (particles r0.1)
  ∧ cursor (iterate_particles sample r0.1 r0.2).2 = 16
  ∧ ∃ p', particles (iterate_particles sample r0.1 r0.2).1 !! 0 = Some p'
      ∧ velocity p' = (0%float, (-15.625)%float)
      ∧ load (heap (iterate_particles sample r0.1 r0.2).2) (position p')
        = ((-25)%float, (-9.375)%float).
Proof.
  cbv zeta.
  assert (swarm_ok (heap (SearchSpace_init sample 2 0.125 2 empty_world).2)
            (particles (SearchSpace_init sample 2 0.125 2 empty_world).1)) as Hok.
  { vm_compute. repeat (split || constructor); lia. }
  split; [exact Hok|].
  destruct (iterate_particles_velocity sample _ _ Hok) as (_ & Hcur & Hvel).
  split; [exact Hcur|].
  destruct (Hvel 0 (mkParticle 0 0 infinity (0%float, 0%float)) eq_refl)
    as (p' & Hp' & Hv & _ & Hl).
  exists p'. split; [exact Hp'|]. split; [exact Hv | by rewrite Hl, Hv].
Defined.

(** The first pass of the run of two particles with the generator
    [sample]: the smaller of the two fitness values becomes the global best. *)
Lemma global_best_minimum_witness :
  let c := mkConfig 0.125 2 3 in
  let st := (start sample c).1 in
  let w := (start sample c).2 in
  reaches sample c 1 ([] ++ observed st w) (loop_body sample st w)
  ∧ global_best_value (SEARCH_SPACE (loop_body sample st w).1.2) = 666.0625%float
  ∧ observed st w = [666.0625%float; 783.25%float].
Proof.
  cbv zeta.
  assert (reaches sample (mkConfig 0.125 2 3) 1
            ([] ++ observed (start sample (mkConfig 0.125 2 3)).1
                     (start sample (mkConfig 0.125 2 3)).2)
            (loop_body sample (start sample (mkConfig 0.125 2 3)).1
               (start sample (mkConfig 0.125 2 3)).2)) as Hreach.
  { apply reaches_pass; [apply reaches_start | by vm_compute]. }
  split; [exact Hreach|].
  destruct (global_best_minimum sample _ _ _ _ Hreach) as (Hg & _).
  split; [rewrite Hg; by vm_compute | by vm_compute].
Defined.

(** The generator [zeros] puts the one particle at (0, 0): the program
    returns in its first pass, after the eight numbers of the constructor. *)
Lemma origin_converges_witness :
  let c := mkConfig 0 1 1 in
  let st := (start zeros c).1 in
  let w := (start zeros c).2 in
  let p := mkParticle 0 0 infinity (0%float, 0%float) in
  (particles (SEARCH_SPACE st) = [p]
   ∧ heap w !! position p = Some (0%float, 0%float)
   ∧ best_position_value p = infinity
   ∧ global_best_value (SEARCH_SPACE st) = infinity
   ∧ target (SEARCH_SPACE st) = 2%float
   ∧ target_exit_boundary (SEARCH_SPACE st) = 0%float
   ∧ (I_ st <? 1)%Z = true)
  ∧ ∃ st' w',
      main zeros c = Returned (st', w')
      ∧ global_best_value (SEARCH_SPACE st') = 2%float
      ∧ cursor w' = 8
      ∧ I_ st' = 0%Z
      ∧ FITNESS_RECORD st' = [].
Proof.
  cbv zeta.
  set (st := (start zeros (mkConfig 0 1 1)).1).
  set (w := (start zeros (mkConfig 0 1 1)).2).
  set (p := mkParticle 0 0 infinity (0%float, 0%float)).
  assert (particles (SEARCH_SPACE st) = [p]) as H1 by by vm_compute.
  assert (heap w !! position p = Some (0%float, 0%float)) as H2 by by vm_compute.
  assert (global_best_value (SEARCH_SPACE st) = infinity) as H4 by by vm_compute.
  assert (target (SEARCH_SPACE st) = 2%float) as H5 by by vm_compute.
  assert (target_exit_boundary (SEARCH_SPACE st) = 0%float) as H6 by by vm_compute.
  assert ((I_ st <? 1)%Z = true) as H7 by by vm_compute.
  split; [by repeat split|].
  destruct (origin_converges zeros 1 0 st w p H1 H2 eq_refl H4 H5 H6 H7)
    as (_ & _ & st' & w' & Hloop & Hg & _ & _ & Hcur & _ & _ & HI & Hrec).
  exists st', w'. rewrite main_eq. split; [exact Hloop|].
  split; [exact Hg|]. split; [by rewrite Hcur|]. split; [by rewrite HI | by rewrite Hrec].
Defined.

(** Two generators that are equal number by number. *)
Lemma replay_witness :
  (∀ n, quarters n = quarters (n + 0))
  ∧ main quarters (mkConfig 0.125 2 3) = main (λ n, quarters (n + 0)) (mkConfig 0.125 2 3).
Proof.
  assert (∀ n, quarters n = quarters (n + 0)) as Hsame
    by (intros n; by rewrite Nat.add_0_r).
  split; [exact Hsame|].
  exact (proj2 (proj2 (replay quarters (λ n, quarters (n + 0)) (mkConfig 0.125 2 3) Hsame))).
Defined.

(** * Further properties of the search *)

(** ** Notions *)

(** The objective at a point: [(x ** 2) + (y ** 2) + 2]. *)
Definition fitness (a : Np.array) : float :=
  ((a.1 * a.1) + (a.2 * a.2) + 2)%float.

(** The [i]-th particle that a constructor call makes in a store of [len]
    objects, and the point the generator gives it, read from number [c] on. *)
Definition fresh_particle (len i : nat) : Particle :=
  mkParticle (len + i) (len + i) infinity (0%float, 0%float).

Definition drawn_point (rng : nat → float) (c : nat) : Np.array :=
  (coordinate (rng c) (rng (c + 1)), coordinate (rng (c + 2)) (rng (c + 3))).

(** What a run records about a particle in a swarm of [n]: either no best
    has been recorded yet, and then [best_position] is still the array of
    [position], or the best value is the objective at the separate array
    that [best_position] names. *)
Definition recorded (n : nat) (h : list Np.array) (p : Particle) : Prop :=
  well_placed n h p
  ∧ (best_position p = position p → best_position_value p = infinity)
  ∧ (n ≤ best_position p → best_position_value p = fitness (load h (best_position p))).

(** A list of floats that never goes up, from the front to the back. *)
Definition non_increasing (l : list float) : Prop :=
  ∀ i j a b, i < j → l !! i = Some a → l !! j = Some b → (b <=? a)%float = true.

(** ** The constructors *)

Lemma get_particle_fitness_eq (h : list Np.array) (p : Particle) :
  get_particle_fitness h p = fitness (load h (position p)).
Proof. reflexivity. Qed.

Lemma replicateM_init_eq (rng : nat → float) (n : nat) (w : World) :
  replicateM n (Particle_init rng) w =
  (map (fresh_particle (length (heap w))) (seq 0 n),
   mkWorld (heap w ++ map (λ i, drawn_point rng (cursor w + 4 * i)) (seq 0 n))
     (cursor w + 4 * n)).
Proof.
  revert w. induction n as [|n IH]; intros w.
  - simpl. unfold ret. destruct w as [h c]. simpl.
    by rewrite app_nil_r, Nat.add_0_r.
  - cbn [replicateM]. unfold bind, ret. rewrite Particle_init_eq, IH.
    cbn [heap cursor]. rewrite length_app. cbn [length seq map].
    rewrite <- (seq_shift n 0), !map_map. f_equal.
    + f_equal.
      * unfold fresh_particle. by rewrite Nat.add_0_r.
      * apply map_ext. intros i. unfold fresh_particle. f_equal; lia.
    + f_equal; [|lia]. rewrite <- app_assoc. f_equal. cbn [app]. f_equal.
      * unfold drawn_point. repeat (f_equal; try lia).
      * apply map_ext. intros i. f_equal. lia.
Qed.

(** X1. [SearchSpace.__init__] makes as many particles as asked for (none
    for a count of zero or less), in order: the [i]-th takes four numbers
    of the generator for its point, its array is a new object of the store,
    its best position is that same object, its best value is infinity and
    its velocity is zero.  Four more numbers give the first global best
    position, whose value is infinity.  The fields [target],
    [target_exit_boundary] and [num_particles] hold the arguments as given. *)
Theorem SearchSpace_init_result (rng : nat → float) (t b : float) (n : Z) (w : World) :
  let r := SearchSpace_init rng t b n w in
  let k := Z.to_nat n in
  particles r.1 = map (fresh_particle (length (heap w))) (seq 0 k)
  ∧ heap r.2 = heap w ++ map (λ i, drawn_point rng (cursor w + 4 * i)) (seq 0 k)
  ∧ cursor r.2 = cursor w + 4 * k + 4
  ∧ global_best_position r.1 = drawn_point rng (cursor w + 4 * k)
  ∧ global_best_value r.1 = infinity
  ∧ target r.1 = t
  ∧ target_exit_boundary r.1 = b
  ∧ num_particles r.1 = n.
Proof.
  cbv zeta. unfold SearchSpace_init, bind, ret.
  rewrite replicateM_init_eq, !rand_coordinate_eq. cbn [fst snd heap cursor].
  cbn [particles global_best_position global_best_value target
       target_exit_boundary num_particles].
  repeat split; [lia|]. unfold drawn_point. repeat (f_equal; try lia).
Qed.

(** ** What a run records *)

Lemma recorded_grows (n : nat) (w w' : World) (p : Particle) :
  grows w w' → recorded n (heap w) p → recorded n (heap w') p.
Proof.
  intros Hg (Hwp & Halias & Hcopy).
  split; [by eapply well_placed_grows|]. split; [done|].
  intros Hn. rewrite (grows_load w w'); [by apply Hcopy | done | apply Hwp].
Qed.

Lemma update_best_recorded (n : nat) (p : Particle) (w : World) :
  n ≤ length (heap w) → recorded n (heap w) p →
  recorded n (heap (update_best p w).2) (update_best p w).1.
Proof.
  intros Hn Hrec. rewrite update_best_eq.
  destruct (_ <? _)%float; [|done].
  destruct Hrec as ((Hp & _ & _) & _ & _). cbn [fst snd heap].
  split; [|split].
  - repeat split; simpl; [done | rewrite length_app; simpl; lia | by right].
  - simpl. lia.
  - intros _. simpl. by rewrite load_app_new.
Qed.

Lemma update_loop_recorded (n : nat) (ps : list Particle) (w : World) :
  n ≤ length (heap w) →
  Forall (recorded n (heap w)) ps →
  Forall (recorded n (heap (for_each update_best ps w).2))
    (for_each update_best ps w).1.
Proof.
  revert w. induction ps as [|p ps IH]; intros w Hn Hall; [done|].
  apply Forall_cons in Hall as [Hp Hall].
  rewrite for_each_cons. cbn [fst snd].
  pose proof (proj2 (update_best_step p w)) as Hg.
  constructor.
  - eapply recorded_grows; [apply update_loop_grows | by apply update_best_recorded].
  - apply IH; [pose proof (grows_length _ _ Hg); lia|].
    eapply Forall_impl; [exact Hall|]. intros q. by apply recorded_grows.
Qed.

Lemma iterate_particles_frame (rng : nat → float) (s : SearchSpace) (w : World) (l : loc) :
  Forall (λ q, position q ≠ l) (particles s) →
  load (heap (iterate_particles rng s w).2) l = load (heap w) l.
Proof.
  intros Hl. unfold iterate_particles, bind, ret.
  pose proof (iterate_loop_frame rng (global_best_position s) (particles s) w l Hl) as H.
  by destruct (for_each _ _ w).
Qed.

Lemma iterate_particles_recorded (rng : nat → float) (n : nat) (s : SearchSpace) (w : World) :
  Forall (recorded n (heap w)) (particles s) →
  Forall (recorded n (heap (iterate_particles rng s w).2))
    (particles (iterate_particles rng s w).1).
Proof.
  intros Hall.
  destruct (iterate_particles_keep rng s w) as (Hkeep & Hlen & _).
  assert (∀ l, n ≤ l → load (heap (iterate_particles rng s w).2) l = load (heap w) l)
    as Hframe.
  { intros l Hl. apply iterate_particles_frame.
    eapply Forall_impl; [exact Hall|]. intros q ((Hq & _) & _). lia. }
  apply Forall_forall. intros p' Hp'.
  apply list_elem_of_lookup in Hp' as [i Hi].
  destruct (Forall2_lookup_r _ _ _ _ _ Hkeep Hi) as (p & Hp & Hpos & Hbest & Hval).
  pose proof (proj1 (Forall_forall _ _) Hall p
                (proj2 (list_elem_of_lookup _ _) (ex_intro _ i Hp)))
    as ((H1 & H2 & H3) & Halias & Hcopy).
  unfold recorded, well_placed. rewrite Hpos, Hbest, Hval, Hlen.
  repeat split; [done..|].
  intros Hn. rewrite Hframe by done. by apply Hcopy.
Qed.

Lemma loop_body_recorded (rng : nat → float) (n : nat) (st : Run) (w : World) :
  n ≤ length (heap w) →
  Forall (recorded n (heap w)) (particles (SEARCH_SPACE st)) →
  Forall (recorded n (heap (loop_body rng st w).2))
    (particles (SEARCH_SPACE (loop_body rng st w).1.2)).
Proof.
  intros Hn Hall. rewrite loop_body_eq. cbv zeta.
  assert (Forall (recorded n (heap (update_particle_best (SEARCH_SPACE st) w).2))
            (particles (update_particle_best (SEARCH_SPACE st) w).1)) as H1.
  { pose proof (update_loop_recorded n _ w Hn Hall) as H.
    revert H. unfold update_particle_best, bind, ret.
    by destruct (for_each update_best (particles (SEARCH_SPACE st)) w). }
  destruct (termination_condition _); cbn [fst snd SEARCH_SPACE]; [done|].
  by apply iterate_particles_recorded.
Qed.

Lemma start_particles (rng : nat → float) (c : Config) :
  particles (SEARCH_SPACE (start rng c).1)
  = map (fresh_particle 0) (seq 0 (Z.to_nat (NUM_PARTICLES c))).
Proof.
  rewrite start_eq. cbn [fst SEARCH_SPACE].
  by rewrite SearchSpace_init_particles, replicateM_init_eq.
Qed.

Lemma reaches_recorded (rng : nat → float) (c : Config) (k : nat)
    (obs : list float) (x : flow * Run * World) :
  reaches rng c k obs x →
  layout (Z.to_nat (NUM_PARTICLES c)) (heap x.2) (particles (SEARCH_SPACE x.1.2))
  ∧ Forall (recorded (Z.to_nat (NUM_PARTICLES c)) (heap x.2))
      (particles (SEARCH_SPACE x.1.2)).
Proof.
  induction 1 as [|k obs st w Hreach IH Hguard].
  - destruct (start_layout rng c) as [Hlay Hinf]. split; [done|].
    cbn [fst snd]. destruct Hlay as (_ & _ & Hwp).
    apply Forall_forall. intros p Hp.
    pose proof (proj1 (Forall_forall _ _) Hwp p Hp) as Hw.
    pose proof (proj1 (Forall_forall _ _) Hinf p Hp) as Hi.
    split; [done|]. split; [done|]. intros Hn. exfalso.
    rewrite start_particles in Hp. apply list_elem_of_In, in_map_iff in Hp.
    destruct Hp as (i & <- & _). destruct Hw as (Hlt & _). simpl in *. lia.
  - cbn [fst snd] in IH. destruct IH as [Hlay Hrec].
    split; [by apply loop_body_layout|].
    apply loop_body_recorded; [apply Hlay | done].
Qed.

(** A run of two particles with the generator [sample], after its first
    pass. *)
Lemma sample_first_pass :
  reaches sample (mkConfig 0.125 2 3) 1
    ([] ++ observed (start sample (mkConfig 0.125 2 3)).1
             (start sample (mkConfig 0.125 2 3)).2)
    (loop_body sample (start sample (mkConfig 0.125 2 3)).1
       (start sample (mkConfig 0.125 2 3)).2).
Proof. apply reaches_pass; [apply reaches_start | by vm_compute]. Qed.

(** X2. In every state of a run the position arrays of the particles are
    distinct objects among the first [n] of the store ([n] the number of
    particles), and the best position of a particle is either still the
    array of its position, and then its best value is still infinity, or
    an object made later, which is no particle's position array. *)
Theorem storage_of_a_run (rng : nat → float) (c : Config) (k : nat)
    (obs : list float) (x : flow * Run * World) :
  reaches rng c k obs x →
  let n := Z.to_nat (NUM_PARTICLES c) in
  let ps := particles (SEARCH_SPACE x.1.2) in
  NoDup (map position ps)
  ∧ Forall (λ p, position p < n ∧ n ≤ length (heap x.2)
                 ∧ best_position p < length (heap x.2)
                 ∧ ((best_position p = position p ∧ best_position_value p = infinity)
                    ∨ (n ≤ best_position p
                       ∧ Forall (λ q, (position q =? best_position p) = false) ps)))
      ps.
Proof.
  intros Hreach. cbv zeta.
  destruct (reaches_recorded rng c k obs x Hreach) as [(Hn & Hdup & Hwp) Hrec].
  split; [done|].
  apply Forall_forall. intros p Hp.
  pose proof (proj1 (Forall_forall _ _) Hrec p Hp) as ((H1 & H2 & H3) & Halias & _).
  repeat split; [done..|].
  destruct H3 as [H3 | H3]; [left; by auto | right].
  split; [done|]. apply Forall_forall. intros q Hq.
  pose proof (proj1 (Forall_forall _ _) Hwp q Hq) as (Hq1 & _).
  apply Nat.eqb_neq. lia.
Qed.

Lemma storage_of_a_run_witness :
  let x := loop_body sample (start sample (mkConfig 0.125 2 3)).1
             (start sample (mkConfig 0.125 2 3)).2 in
  reaches sample (mkConfig 0.125 2 3) 1
    ([] ++ observed (start sample (mkConfig 0.125 2 3)).1
             (start sample (mkConfig 0.125 2 3)).2) x
  ∧ NoDup (map position (particles (SEARCH_SPACE x.1.2)))
  ∧ map best_position (particles (SEARCH_SPACE x.1.2)) = [2; 3].
Proof.
  cbv zeta. split; [exact sample_first_pass|].
  split; [exact (proj1 (storage_of_a_run _ _ _ _ _ sample_first_pass)) | by vm_compute].
Defined.

(** X3. In every state of a run the best value recorded for a particle is
    infinity or the objective at the point that its recorded best position
    holds. *)
Theorem recorded_best_is_fitness (rng : nat → float) (c : Config) (k : nat)
    (obs : list float) (x : flow * Run * World) :
  reaches rng c k obs x →
  Forall (λ p, best_position_value p = infinity
               ∨ best_position_value p = fitness (load (heap x.2) (best_position p)))
    (particles (SEARCH_SPACE x.1.2)).
Proof.
  intros Hreach.
  destruct (reaches_recorded rng c k obs x Hreach) as [_ Hrec].
  eapply Forall_impl; [exact Hrec|].
  intros p ((_ & _ & [H | H]) & Halias & Hcopy); [left; auto | right; auto].
Qed.

Lemma recorded_best_is_fitness_witness :
  let x := loop_body sample (start sample (mkConfig 0.125 2 3)).1
             (start sample (mkConfig 0.125 2 3)).2 in
  reaches sample (mkConfig 0.125 2 3) 1
    ([] ++ observed (start sample (mkConfig 0.125 2 3)).1
             (start sample (mkConfig 0.125 2 3)).2) x
  ∧ Forall (λ p, best_position_value p = infinity
                 ∨ best_position_value p = fitness (load (heap x.2) (best_position p)))
      (particles (SEARCH_SPACE x.1.2))
  ∧ map best_position_value (particles (SEARCH_SPACE x.1.2))
    = [666.0625%float; 783.25%float].
Proof.
  cbv zeta. split; [exact sample_first_pass|].
  split; [exact (recorded_best_is_fitness _ _ _ _ _ sample_first_pass) | by vm_compute].
Defined.

(** ** The global best and the personal bests *)

Lemma start_global_best (rng : nat → float) (c : Config) :
  global_best_position (SEARCH_SPACE (start rng c).1)
  = drawn_point rng (4 * Z.to_nat (NUM_PARTICLES c))
  ∧ global_best_value (SEARCH_SPACE (start rng c).1) = infinity.
Proof.
  rewrite start_eq. cbn [fst SEARCH_SPACE].
  unfold SearchSpace_init, bind, ret.
  rewrite replicateM_init_eq, !rand_coordinate_eq. cbn [fst snd heap cursor].
  cbn [global_best_position global_best_value]. split; [|done].
  unfold drawn_point, empty_world. cbn [cursor]. repeat (f_equal; try lia).
Qed.

Lemma loop_body_global_pair (rng : nat → float) (st : Run) (w : World) :
  (global_best_position (SEARCH_SPACE (loop_body rng st w).1.2),
   global_best_value (SEARCH_SPACE (loop_body rng st w).1.2))
  = (global_best_position (SEARCH_SPACE st), global_best_value (SEARCH_SPACE st))
  ∨ global_best_value (SEARCH_SPACE (loop_body rng st w).1.2)
    = fitness (global_best_position (SEARCH_SPACE (loop_body rng st w).1.2)).
Proof.
  rewrite loop_body_eq. cbv zeta.
  destruct (update_particle_best_keeps (SEARCH_SPACE st) w) as (Hv & Hp & _).
  set (r1 := update_particle_best (SEARCH_SPACE st) w) in *.
  assert ((global_best_position (update_global_best r1.1 r1.2).1,
           global_best_value (update_global_best r1.1 r1.2).1)
          = (global_best_position (SEARCH_SPACE st), global_best_value (SEARCH_SPACE st))
          ∨ global_best_value (update_global_best r1.1 r1.2).1
            = fitness (global_best_position (update_global_best r1.1 r1.2).1)) as H.
  { rewrite update_global_best_eq. cbn [fst set_global_best global_best_position
      global_best_value].
    destruct (fold_global_best_cases (heap r1.2) (particles r1.1)
                (global_best_position r1.1, global_best_value r1.1))
      as [-> | (p & _ & -> & _)]; [left; simpl; by rewrite Hv, Hp | by right]. }
  destruct (termination_condition _); cbn [fst snd SEARCH_SPACE]; [done|].
  by destruct (iterate_particles_keep rng (update_global_best r1.1 r1.2).1 r1.2)
    as (_ & _ & -> & ->).
Qed.

(** X4. In every state of a run the global best is either still the point
    the constructor drew, with the value infinity (a point whose objective
    was never computed), or a point together with the objective at it. *)
Theorem global_best_pair (rng : nat → float) (c : Config) (k : nat)
    (obs : list float) (x : flow * Run * World) :
  reaches rng c k obs x →
  (global_best_position (SEARCH_SPACE x.1.2)
   = drawn_point rng (4 * Z.to_nat (NUM_PARTICLES c))
   ∧ global_best_value (SEARCH_SPACE x.1.2) = infinity)
  ∨ global_best_value (SEARCH_SPACE x.1.2)
    = fitness (global_best_position (SEARCH_SPACE x.1.2)).
Proof.
  induction 1 as [|k obs st w Hreach IH Hguard].
  - left. apply start_global_best.
  - cbn [fst snd] in *.
    destruct (loop_body_global_pair rng st w) as [[= -> ->] | H]; [done | by right].
Qed.

Lemma global_best_pair_witness :
  let x := loop_body sample (start sample (mkConfig 0.125 2 3)).1
             (start sample (mkConfig 0.125 2 3)).2 in
  reaches sample (mkConfig 0.125 2 3) 1
    ([] ++ observed (start sample (mkConfig 0.125 2 3)).1
             (start sample (mkConfig 0.125 2 3)).2) x
  ∧ global_best_position (SEARCH_SPACE x.1.2) = ((-25)%float, 6.25%float)
  ∧ global_best_value (SEARCH_SPACE x.1.2) = fitness ((-25)%float, 6.25%float).
Proof.
  cbv zeta. split; [exact sample_first_pass|].
  destruct (global_best_pair _ _ _ _ _ sample_first_pass) as [[_ H] | H].
  - by vm_compute in H.
  - split; [by vm_compute | by vm_compute].
Defined.

(** The personal-best update gives a particle the fitness [F] of its
    current position as best value, or leaves the best value. *)
Lemma update_loop_candidates (F : Particle → float) (ps : list Particle) (w : World) :
  Forall (λ q, position q < length (heap w) ∧ get_particle_fitness (heap w) q = F q) ps →
  Forall2 (λ p p', best_position_value p' = best_position_value p
                   ∨ (best_position_value p' = F p
                      ∧ (F p <? best_position_value p)%float = true))
    ps (for_each update_best ps w).1.
Proof.
  revert w. induction ps as [|p ps IH]; intros w Hall; [constructor|].
  apply Forall_cons in Hall as [[Hp HF] Hall].
  rewrite for_each_cons. cbn [fst snd].
  pose proof (proj2 (update_best_step p w)) as Hg.
  constructor.
  - rewrite update_best_eq, HF. destruct (_ <? _)%float eqn:E; [by right | by left].
  - apply IH. eapply Forall_impl; [exact Hall|]. intros q [Hq HFq].
    split; [pose proof (grows_length _ _ Hg); lia|].
    unfold get_particle_fitness. rewrite (grows_load _ _ _ Hg Hq). exact HFq.
Qed.

(** A pass keeps the global best value at or below every personal best. *)
Lemma loop_body_best_bound (rng : nat → float) (st : Run) (w : World) :
  Forall (valid_particle (heap w)) (particles (SEARCH_SPACE st)) →
  is_nan (global_best_value (SEARCH_SPACE st)) = false →
  Forall (λ p, (global_best_value (SEARCH_SPACE st) <=? best_position_value p)%float = true)
    (particles (SEARCH_SPACE st)) →
  Forall (λ p, (global_best_value (SEARCH_SPACE (loop_body rng st w).1.2)
                <=? best_position_value p)%float = true)
    (particles (SEARCH_SPACE (loop_body rng st w).1.2)).
Proof.
  intros Hvalid Hnan Hbound.
  pose proof (loop_body_global_best rng st w) as Hg.
  rewrite (observed_current st w Hvalid) in Hg.
  set (F := get_particle_fitness (heap w)) in *.
  assert (Forall2 (λ p p', best_position_value p' = best_position_value p
                           ∨ (best_position_value p' = F p
                              ∧ (F p <? best_position_value p)%float = true))
            (particles (SEARCH_SPACE st))
            (particles (SEARCH_SPACE (loop_body rng st w).1.2))) as Hstep.
  { rewrite loop_body_eq. cbv zeta.
    assert (Forall2 (λ p p', best_position_value p' = best_position_value p
                             ∨ (best_position_value p' = F p
                                ∧ (F p <? best_position_value p)%float = true))
              (particles (SEARCH_SPACE st))
              (particles (update_particle_best (SEARCH_SPACE st) w).1)) as H1.
    { pose proof (update_loop_candidates F (particles (SEARCH_SPACE st)) w) as H.
      unfold update_particle_best, bind, ret.
      destruct (for_each update_best (particles (SEARCH_SPACE st)) w). apply H.
      eapply Forall_impl; [exact Hvalid|]. by intros q [? _]. }
    destruct (termination_condition _); cbn [fst snd SEARCH_SPACE]; [done|].
    set (r1 := update_particle_best (SEARCH_SPACE st) w) in *.
    eapply Forall2_trans;
      [| exact H1
       | exact (proj1 (iterate_particles_keep rng
                         (update_global_best r1.1 r1.2).1 r1.2))].
    intros p p1 p2 H (_ & _ & ->). exact H. }
  rewrite Hg. apply Forall_forall. intros p' Hp'.
  apply list_elem_of_lookup in Hp' as [i Hi].
  destruct (Forall2_lookup_r _ _ _ _ _ Hstep Hi) as (p & Hp & Hcase).
  assert (p ∈ particles (SEARCH_SPACE st)) as Hin
    by (apply list_elem_of_lookup; by exists i).
  destruct Hcase as [-> | [-> Hlt]].
  - eapply FloatOrder.leb_trans; [|exact (proj1 (Forall_forall _ _) Hbound p Hin)].
    apply not_above_leb; [done | apply fold_fmin_not_above].
  - apply fold_fmin_lower; [done | | by eapply FloatOrder.ltb_not_nan].
    apply list_elem_of_In, in_map, list_elem_of_In, Hin.
Qed.

(** X5. In every state of a run the global best value is at or below the
    best value of every particle. *)
Theorem global_best_below_personal (rng : nat → float) (c : Config) (k : nat)
    (obs : list float) (x : flow * Run * World) :
  reaches rng c k obs x →
  Forall (λ p, (global_best_value (SEARCH_SPACE x.1.2)
                <=? best_position_value p)%float = true)
    (particles (SEARCH_SPACE x.1.2)).
Proof.
  induction 1 as [|k obs st w Hreach IH Hguard].
  - destruct (start_global_best rng c) as [_ Hg]. cbn [fst snd]. rewrite Hg.
    eapply Forall_impl; [apply start_layout|]. intros p Hp. simpl in Hp. by rewrite Hp.
  - cbn [fst snd] in *. apply loop_body_best_bound; [| |done].
    + apply (reaches_swarm_ok rng c k obs _ Hreach).
    + pose proof (reaches_global_best rng c k obs _ Hreach) as Hgv.
      cbn [fst snd] in Hgv. rewrite Hgv. by apply fold_fmin_not_nan.
Qed.

Lemma global_best_below_personal_witness :
  let x := loop_body sample (start sample (mkConfig 0.125 2 3)).1
             (start sample (mkConfig 0.125 2 3)).2 in
  reaches sample (mkConfig 0.125 2 3) 1
    ([] ++ observed (start sample (mkConfig 0.125 2 3)).1
             (start sample (mkConfig 0.125 2 3)).2) x
  ∧ Forall (λ p, (global_best_value (SEARCH_SPACE x.1.2)
                  <=? best_position_value p)%float = true)
      (particles (SEARCH_SPACE x.1.2)).
Proof.
  cbv zeta. split; [exact sample_first_pass|].
  exact (global_best_below_personal _ _ _ _ _ sample_first_pass).
Defined.

(** ** The bookkeeping of a run *)

Lemma start_world (rng : nat → float) (c : Config) :
  length (heap (start rng c).2) = Z.to_nat (NUM_PARTICLES c)
  ∧ cursor (start rng c).2 = 4 * Z.to_nat (NUM_PARTICLES c) + 4.
Proof.
  rewrite start_eq. cbn [snd]. unfold SearchSpace_init, bind, ret.
  rewrite replicateM_init_eq, !rand_coordinate_eq. cbn [fst snd heap cursor].
  unfold empty_world. cbn [heap cursor app]. rewrite length_map, length_seq.
  split; lia.
Qed.

Lemma loop_body_config (rng : nat → float) (st : Run) (w : World) :
  target (SEARCH_SPACE (loop_body rng st w).1.2) = target (SEARCH_SPACE st)
  ∧ target_exit_boundary (SEARCH_SPACE (loop_body rng st w).1.2)
    = target_exit_boundary (SEARCH_SPACE st)
  ∧ num_particles (SEARCH_SPACE (loop_body rng st w).1.2)
    = num_particles (SEARCH_SPACE st)
  ∧ length (particles (SEARCH_SPACE (loop_body rng st w).1.2))
    = length (particles (SEARCH_SPACE st)).
Proof.
  split; [|split; [|split]];
    [| | |symmetry; eapply Forall2_length, loop_body_particles];
    rewrite loop_body_eq; cbv zeta;
    unfold update_particle_best, update_global_best, iterate_particles, bind, ret;
    destruct (for_each update_best (particles (SEARCH_SPACE st)) w) as [ps1 w1];
    cbn [fst snd]; destruct (termination_condition _); cbn [fst snd SEARCH_SPACE];
    try done; by destruct (for_each _ _ w1).
Qed.

Lemma loop_body_cursor (rng : nat → float) (st : Run) (w : World) :
  cursor (loop_body rng st w).2 =
  match (loop_body rng st w).1.1 with
  | Break => cursor w
  | Continue => cursor w + 2 * length (particles (SEARCH_SPACE st))
  end.
Proof.
  rewrite loop_body_eq. cbv zeta.
  destruct (update_particle_best_step (SEARCH_SPACE st) w) as [Hstep [_ Hc]].
  apply Forall2_length in Hstep.
  set (r1 := update_particle_best (SEARCH_SPACE st) w) in *.
  destruct (termination_condition _); cbn [fst snd]; [done|].
  unfold iterate_particles, bind, ret.
  pose proof (iterate_loop_cursor rng
                (global_best_position (update_global_best r1.1 r1.2).1)
                (particles (update_global_best r1.1 r1.2).1) r1.2) as H.
  destruct (for_each _ _ r1.2) as [ps3 w3]. cbn [fst snd] in *.
  rewrite H, Hc, Hstep. by rewrite update_global_best_eq.
Qed.

Lemma reaches_bookkeeping (rng : nat → float) (c : Config) (k : nat)
    (obs : list float) (x : flow * Run * World) :
  reaches rng c k obs x →
  length (particles (SEARCH_SPACE x.1.2)) = Z.to_nat (NUM_PARTICLES c)
  ∧ num_particles (SEARCH_SPACE x.1.2) = NUM_PARTICLES c
  ∧ target (SEARCH_SPACE x.1.2) = TARGET
  ∧ target_exit_boundary (SEARCH_SPACE x.1.2) = TARGET_EXIT_BOUNDARY c
  ∧ (0 ≤ I_ x.1.2)%Z
  ∧ cursor x.2 = 4 * Z.to_nat (NUM_PARTICLES c) + 4
                 + 2 * Z.to_nat (NUM_PARTICLES c) * Z.to_nat (I_ x.1.2).
Proof.
  induction 1 as [|k obs st w Hreach IH Hguard].
  - cbn [fst snd]. destruct (start_world rng c) as [_ Hc].
    destruct (start_counter rng c) as [HI _]. rewrite HI, Hc.
    rewrite start_particles, length_map, length_seq.
    rewrite start_eq. cbn [fst SEARCH_SPACE].
    destruct (SearchSpace_init_fields rng TARGET (TARGET_EXIT_BOUNDARY c)
                (NUM_PARTICLES c) empty_world) as (_ & -> & -> & ->).
    repeat split; lia.
  - cbn [fst snd] in IH. destruct IH as (Hlen & Hnum & Ht & Hb & HI & Hc).
    destruct (loop_body_config rng st w) as (-> & -> & -> & ->).
    pose proof (loop_body_cursor rng st w) as Hcur.
    pose proof (loop_body_counter rng st w) as Hcount.
    repeat split; try done;
      destruct ((loop_body rng st w).1.1); destruct Hcount as [Hcount _];
      rewrite ?Hcur, Hcount; try lia.
    rewrite Hc, Hlen. rewrite Z2Nat.inj_add by lia. simpl. lia.
Qed.

(** X6. In every state of a run the swarm has the number of particles that
    was asked for (none for a count below one), the fields [num_particles],
    [target] and [target_exit_boundary] are as the run was configured, and
    the generator has handed out four numbers for every particle, four for
    the first global best position and two for every particle in every pass
    that went through. *)
Theorem bookkeeping_of_a_run (rng : nat → float) (c : Config) (k : nat)
    (obs : list float) (x : flow * Run * World) :
  reaches rng c k obs x →
  let n := Z.to_nat (NUM_PARTICLES c) in
  length (particles (SEARCH_SPACE x.1.2)) = n
  ∧ num_particles (SEARCH_SPACE x.1.2) = NUM_PARTICLES c
  ∧ target (SEARCH_SPACE x.1.2) = TARGET
  ∧ target_exit_boundary (SEARCH_SPACE x.1.2) = TARGET_EXIT_BOUNDARY c
  ∧ cursor x.2 = 4 * n + 4 + 2 * n * Z.to_nat (I_ x.1.2).
Proof.
  intros Hreach. cbv zeta.
  destruct (reaches_bookkeeping rng c k obs x Hreach) as (? & ? & ? & ? & _ & ?).
  done.
Qed.

Lemma bookkeeping_of_a_run_witness :
  let x := loop_body sample (start sample (mkConfig 0.125 2 3)).1
             (start sample (mkConfig 0.125 2 3)).2 in
  reaches sample (mkConfig 0.125 2 3) 1
    ([] ++ observed (start sample (mkConfig 0.125 2 3)).1
             (start sample (mkConfig 0.125 2 3)).2) x
  ∧ length (particles (SEARCH_SPACE x.1.2)) = 2
  ∧ cursor x.2 = 16.
Proof.
  cbv zeta. split; [exact sample_first_pass|].
  destruct (bookkeeping_of_a_run _ _ _ _ _ sample_first_pass) as (Hlen & _ & _ & _ & Hc).
  split; [exact Hlen|]. rewrite Hc. by vm_compute.
Defined.

(** ** How the loop is left *)

Lemma loop_body_break (rng : nat → float) (st : Run) (w : World) :
  (loop_body rng st w).1.1 = Break →
  termination_condition (SEARCH_SPACE (loop_body rng st w).1.2) = true.
Proof.
  rewrite loop_body_eq. cbv zeta.
  by destruct (termination_condition _) eqn:E.
Qed.

Lemma loop_body_continue (rng : nat → float) (st : Run) (w : World) :
  termination_condition (SEARCH_SPACE (loop_body rng st w).1.2) = false →
  (loop_body rng st w).1.1 = Continue.
Proof.
  intros H. destruct ((loop_body rng st w).1.1) eqn:E; [|done].
  apply loop_body_break in E. congruence.
Qed.

Lemma while_loop_exit (rng : nat → float) (max : Z) (fuel : nat) :
  ∀ st w r, while_loop rng max fuel st w = Returned r →
    (I_ st ≤ I_ r.1)%Z
    ∧ ((termination_condition (SEARCH_SPACE r.1) = true ∧ I_ r.1 < max)%Z
       ∨ (max ≤ I_ r.1 ∧ (I_ r.1 = I_ st ∨ I_ r.1 = max))%Z).
Proof.
  induction fuel as [|fuel IH]; intros st w r;
    rewrite while_loop_unfold; destruct (I_ st <? max)%Z eqn:Hguard; try done;
    try (intros [= <-]; apply Z.ltb_ge in Hguard; cbn [fst]; lia).
  apply Z.ltb_lt in Hguard.
  pose proof (loop_body_counter rng st w) as Hc.
  destruct ((loop_body rng st w).1.1) eqn:Hflow.
  - intros [= <-]. cbn [fst]. destruct Hc as [-> _].
    split; [lia|]. left. split; [by apply loop_body_break | done].
  - intros Hr. destruct (IH _ _ _ Hr) as [Hle Hcase].
    destruct Hc as [Hc _]. rewrite Hc in Hle, Hcase. split; [lia|].
    destruct Hcase as [? | [? ?]]; [by left | right; lia].
Qed.

(** X7. The program returns with a counter between zero and the budget.
    Either the termination condition holds of the search space it returns
    and the counter is below the budget, or the counter is the budget (zero
    for a budget below zero). *)
Theorem main_exit (rng : nat → float) (c : Config) :
  ∃ r, main rng c = Returned r
       ∧ (0 ≤ I_ r.1 ≤ Z.max 0 (MAX_ITERATIONS c))%Z
       ∧ ((termination_condition (SEARCH_SPACE r.1) = true
           ∧ I_ r.1 < MAX_ITERATIONS c)%Z
          ∨ I_ r.1 = Z.max 0 (MAX_ITERATIONS c)).
Proof.
  destruct (main_returns rng c) as [r Hr]. exists r. split; [done|].
  rewrite main_eq in Hr. apply while_loop_exit in Hr.
  destruct (start_counter rng c) as [H0 _]. rewrite H0 in Hr.
  destruct Hr as [Hle [[Ht Hlt] | [Hge Hcase]]]; (split; [lia|]); [by left | right; lia].
Qed.

Lemma SFleb_abs_zero (x b : spec_float) :
  SFleb (SFabs x) b = true → SFleb (S754_zero false) b = true.
Proof. unfold SFleb. FloatOrder.spec_order. Qed.

Lemma leb_abs_zero (x b : float) :
  (abs x <=? b)%float = true → (0 <=? b)%float = true.
Proof.
  rewrite !leb_spec, abs_spec.
  change (Prim2SF 0) with (S754_zero false). apply SFleb_abs_zero.
Qed.

(** An exit boundary that is negative or not a number is never met. *)
Lemma boundary_never_met (s : SearchSpace) :
  (0 <=? target_exit_boundary s)%float = false → termination_condition s = false.
Proof.
  intros Hb. unfold termination_condition.
  destruct (abs _ <=? _)%float eqn:E; [|done].
  apply leb_abs_zero in E. congruence.
Qed.

(** X8. With an exit boundary that is negative or not a number the run
    never stops early: the program returns after as many passes as the
    budget allows, and the fitness record has one entry for each. *)
Theorem budget_exhausted (rng : nat → float) (c : Config) :
  (0 <=? TARGET_EXIT_BOUNDARY c)%float = false →
  ∃ r, main rng c = Returned r
       ∧ I_ r.1 = Z.max 0 (MAX_ITERATIONS c)
       ∧ length (FITNESS_RECORD r.1) = Z.to_nat (MAX_ITERATIONS c)
       ∧ termination_condition (SEARCH_SPACE r.1) = false.
Proof.
  intros Hb. destruct (main_returns rng c) as [r Hr]. exists r. split; [done|].
  destruct (main_reaches rng c r Hr) as (k & obs & fl & Hreach).
  destruct (reaches_bookkeeping rng c k obs _ Hreach) as (_ & _ & _ & Hbound & _).
  destruct (reaches_counter rng c k obs _ Hreach) as [Hlen _].
  cbn [fst snd] in Hbound, Hlen.
  assert (termination_condition (SEARCH_SPACE r.1) = false) as Hterm
    by (apply boundary_never_met; by rewrite Hbound).
  rewrite main_eq in Hr. apply while_loop_exit in Hr.
  destruct (start_counter rng c) as [H0 _]. rewrite H0 in Hr.
  destruct Hr as [Hle [[Ht _] | [Hge Hcase]]]; [congruence|].
  assert (I_ r.1 = Z.max 0 (MAX_ITERATIONS c)) as HI by lia.
  split; [done|]. split; [lia | done].
Qed.

Lemma budget_exhausted_witness :
  (0 <=? TARGET_EXIT_BOUNDARY (mkConfig (-1) 2 2))%float = false
  ∧ ∃ r, main sample (mkConfig (-1) 2 2) = Returned r
         ∧ I_ r.1 = 2%Z
         ∧ length (FITNESS_RECORD r.1) = 2.
Proof.
  assert ((0 <=? TARGET_EXIT_BOUNDARY (mkConfig (-1) 2 2))%float = false) as Hb
    by by vm_compute.
  split; [exact Hb|].
  destruct (budget_exhausted sample (mkConfig (-1) 2 2) Hb) as (r & Hr & HI & Hlen & _).
  exists r. by repeat split.
Defined.

(** ** A swarm without particles *)

Lemma loop_body_empty (rng : nat → float) (st : Run) (w : World) :
  particles (SEARCH_SPACE st) = [] →
  loop_body rng st w =
  if termination_condition (SEARCH_SPACE st) then (Break, st, w)
  else (Continue,
        mkRun (SEARCH_SPACE st) (I_ st + 1)
          (FITNESS_RECORD st ++ [global_best_value (SEARCH_SPACE st)]), w).
Proof.
  intros Hps. destruct st as [s i rec]. destruct s as [n ps t b gp gv].
  cbn [SEARCH_SPACE particles] in *. subst ps.
  unfold loop_body, update_particle_best, update_global_best, iterate_particles,
    bind, ret. cbn [for_each particles set_particles SEARCH_SPACE]. unfold ret.
  cbn [particles fold_left set_global_best fst snd num_particles target
       target_exit_boundary global_best_position global_best_value
       I_ FITNESS_RECORD for_each].
  destruct (termination_condition _); [done|]. by unfold ret.
Qed.

(** X9. A run that is asked for fewer than one particle has no particle, so
    that the store, which holds the position and best-position arrays of
    the particles, stays empty (the one array the constructor makes, for
    the global best position, is kept by value and is no object of the
    store); it draws the four numbers of the first global best position and
    no other, and its global best value stays infinity.  It
    leaves the loop at once when the exit boundary is infinity, and
    otherwise after as many passes as the budget allows, each of which
    records infinity. *)
Theorem empty_swarm (rng : nat → float) (c : Config) :
  (NUM_PARTICLES c < 1)%Z →
  ∃ r, main rng c = Returned r
       ∧ particles (SEARCH_SPACE r.1) = []
       ∧ r.2 = mkWorld [] 4
       ∧ global_best_value (SEARCH_SPACE r.1) = infinity
       ∧ global_best_position (SEARCH_SPACE r.1) = drawn_point rng 0
       ∧ if (infinity <=? TARGET_EXIT_BOUNDARY c)%float
         then I_ r.1 = 0%Z ∧ FITNESS_RECORD r.1 = []
         else I_ r.1 = Z.max 0 (MAX_ITERATIONS c)
              ∧ FITNESS_RECORD r.1 = replicate (Z.to_nat (MAX_ITERATIONS c)) infinity.
Proof.
  intros Hn. destruct (main_returns rng c) as [r Hr]. exists r. split; [done|].
  set (P := λ (st : Run) (w : World),
         particles (SEARCH_SPACE st) = []
         ∧ w = mkWorld [] 4
         ∧ global_best_value (SEARCH_SPACE st) = infinity
         ∧ global_best_position (SEARCH_SPACE st) = drawn_point rng 0
         ∧ target (SEARCH_SPACE st) = 2%float
         ∧ target_exit_boundary (SEARCH_SPACE st) = TARGET_EXIT_BOUNDARY c
         ∧ (0 ≤ I_ st)%Z
         ∧ FITNESS_RECORD st = replicate (Z.to_nat (I_ st)) infinity
         ∧ ((infinity <=? TARGET_EXIT_BOUNDARY c)%float = true → I_ st = 0%Z)).
  assert (∀ st, target (SEARCH_SPACE st) = 2%float →
                global_best_value (SEARCH_SPACE st) = infinity →
                target_exit_boundary (SEARCH_SPACE st) = TARGET_EXIT_BOUNDARY c →
                termination_condition (SEARCH_SPACE st)
                = (infinity <=? TARGET_EXIT_BOUNDARY c)%float) as Hterm.
  { intros st Ht Hg Hb. unfold termination_condition. by rewrite Ht, Hg, Hb. }
  assert (P (start rng c).1 (start rng c).2) as Hstart.
  { destruct (start_global_best rng c) as [Hgp Hgv].
    destruct (start_counter rng c) as [HI Hrec].
    replace (Z.to_nat (NUM_PARTICLES c)) with 0 in Hgp by lia.
    unfold P. rewrite Hgp, Hgv, HI, Hrec, start_particles.
    replace (Z.to_nat (NUM_PARTICLES c)) with 0 by lia.
    rewrite start_eq. cbn [fst snd SEARCH_SPACE].
    destruct (SearchSpace_init_fields rng TARGET (TARGET_EXIT_BOUNDARY c)
                (NUM_PARTICLES c) empty_world) as (_ & -> & -> & _).
    repeat split; try done.
    unfold SearchSpace_init, bind, ret. rewrite replicateM_init_eq, !rand_coordinate_eq.
    replace (Z.to_nat (NUM_PARTICLES c)) with 0 by lia. done. }
  assert (∀ st w, P st w → (I_ st <? MAX_ITERATIONS c)%Z = true →
            P (loop_body rng st w).1.2 (loop_body rng st w).2) as Hstep.
  { intros st w (Hps & Hw & Hg & Hgp & Ht & Hb & HI & Hrec & Hinf) _.
    rewrite (loop_body_empty rng st w Hps), (Hterm st Ht Hg Hb).
    destruct (infinity <=? TARGET_EXIT_BOUNDARY c)%float eqn:E; cbn [fst snd].
    - unfold P. repeat split; try done; intros H; by apply Hinf.
    - unfold P. cbn [SEARCH_SPACE I_ FITNESS_RECORD].
      repeat split; try done; try lia; try (intros H; congruence).
      rewrite Hrec, Hg, Z2Nat.inj_add by lia. simpl.
      by rewrite Nat.add_1_r, replicate_S_end. }
  rewrite main_eq in Hr.
  pose proof (while_loop_invariant rng (MAX_ITERATIONS c) P Hstep _ _ _ r Hstart Hr)
    as (Hps & Hw & Hg & Hgp & Ht & Hb & HI & Hrec & Hinf).
  repeat split; try done.
  destruct (infinity <=? TARGET_EXIT_BOUNDARY c)%float eqn:E.
  - rewrite Hrec, (Hinf eq_refl). by split.
  - apply while_loop_exit in Hr.
    destruct (start_counter rng c) as [H0 _]. rewrite H0 in Hr.
    destruct Hr as [Hle [[Hcond _] | [Hge Hcase]]].
    + rewrite (Hterm r.1 Ht Hg Hb) in Hcond. congruence.
    + assert (I_ r.1 = Z.max 0 (MAX_ITERATIONS c)) as Heq by lia.
      split; [done|]. rewrite Hrec, Heq. f_equal. lia.
Qed.

Lemma empty_swarm_witness :
  (NUM_PARTICLES (mkConfig 0.5 0 3) < 1)%Z
  ∧ ∃ r, main quarters (mkConfig 0.5 0 3) = Returned r
         ∧ r.2 = mkWorld [] 4
         ∧ I_ r.1 = 3%Z
         ∧ FITNESS_RECORD r.1 = [infinity; infinity; infinity].
Proof.
  assert ((NUM_PARTICLES (mkConfig 0.5 0 3) < 1)%Z) as Hn by (simpl; lia).
  split; [exact Hn|].
  destruct (empty_swarm quarters (mkConfig 0.5 0 3) Hn)
    as (r & Hr & _ & Hw & _ & _ & Hcase).
  exists r. split; [exact Hr|]. split; [exact Hw|]. exact Hcase.
Defined.

(** ** The fitness record *)

Lemma reaches_record (rng : nat → float) (c : Config) (k : nat)
    (obs : list float) (x : flow * Run * World) :
  reaches rng c k obs x →
  non_increasing (FITNESS_RECORD x.1.2)
  ∧ Forall (λ f, (global_best_value (SEARCH_SPACE x.1.2) <=? f)%float = true)
      (FITNESS_RECORD x.1.2).
Proof.
  induction 1 as [|k obs st w Hreach IH Hguard].
  - cbn [fst snd]. destruct (start_counter rng c) as [_ ->].
    split; [by intros i j a b _ Hi | constructor].
  - cbn [fst snd] in IH. destruct IH as [Hni Hall].
    pose proof (reaches_global_best rng c k obs _ Hreach) as Hg. cbn [fst snd] in Hg.
    assert (is_nan (global_best_value (SEARCH_SPACE st)) = false) as Hnan
      by (rewrite Hg; by apply fold_fmin_not_nan).
    pose proof (loop_body_global_best rng st w) as Hg'.
    assert (not_above (global_best_value (SEARCH_SPACE (loop_body rng st w).1.2))
              (global_best_value (SEARCH_SPACE st))) as Hstep
      by (rewrite Hg'; apply fold_fmin_not_above).
    assert (is_nan (global_best_value (SEARCH_SPACE (loop_body rng st w).1.2)) = false)
      as Hnan' by (rewrite Hg'; by apply fold_fmin_not_nan).
    pose proof (not_above_leb _ _ Hnan Hstep) as Hle.
    assert (Forall (λ f, (global_best_value (SEARCH_SPACE (loop_body rng st w).1.2)
                          <=? f)%float = true) (FITNESS_RECORD st)) as Hall'.
    { eapply Forall_impl; [exact Hall|]. intros f Hf. simpl in Hf.
      by eapply FloatOrder.leb_trans. }
    pose proof (loop_body_counter rng st w) as Hc.
    destruct ((loop_body rng st w).1.1); destruct Hc as [_ ->]; [done|].
    split.
    + intros i j a b Hij Hi Hj.
      destruct (decide (j < length (FITNESS_RECORD st))) as [Hlt | Hge].
      * rewrite lookup_app_l in Hi by lia. rewrite lookup_app_l in Hj by lia.
        exact (Hni i j a b Hij Hi Hj).
      * apply lookup_lt_Some in Hj as Hj'. rewrite length_app in Hj'. simpl in Hj'.
        assert (j = length (FITNESS_RECORD st)) as -> by lia.
        rewrite list_lookup_middle in Hj by done. injection Hj as <-.
        rewrite lookup_app_l in Hi by lia.
        apply (proj1 (Forall_forall _ _) Hall' a).
        apply list_elem_of_lookup. by exists i.
    + apply Forall_app. split; [done|]. constructor; [|constructor].
      by apply FloatOrder.leb_refl.
Qed.

(** X10. The fitness record that the program returns never goes up from
    one entry to a later one, and no entry is below the global best value
    that is returned with it. *)
Theorem fitness_record_non_increasing (rng : nat → float) (c : Config) :
  ∃ r, main rng c = Returned r
       ∧ non_increasing (FITNESS_RECORD r.1)
       ∧ Forall (λ f, (global_best_value (SEARCH_SPACE r.1) <=? f)%float = true)
           (FITNESS_RECORD r.1).
Proof.
  destruct (main_returns rng c) as [r Hr]. exists r. split; [done|].
  destruct (main_reaches rng c r Hr) as (k & obs & fl & Hreach).
  exact (reaches_record rng c k obs _ Hreach).
Qed.

(** ** Updating twice *)

Lemma fmin_candidate_not_below (a x : float) : (x <? fmin a x)%float = false.
Proof.
  unfold fmin. destruct (x <? a)%float eqn:E; [apply FloatOrder.ltb_irrefl | done].
Qed.

(** No candidate is strictly below the fold. *)
Lemma fold_fmin_no_lower (l : list float) (a f : float) :
  f ∈ l → (f <? fold_left fmin l a)%float = false.
Proof.
  revert a. induction l as [|x l IH]; intros a Hin; [by inv Hin|].
  simpl. apply elem_of_cons in Hin as [-> | Hin]; [|by apply IH].
  destruct (fold_fmin_not_above l (fmin a x)) as [-> | Hlt];
    [apply fmin_candidate_not_below|].
  destruct (x <? fold_left fmin l (fmin a x))%float eqn:E; [|done].
  pose proof (FloatOrder.ltb_trans _ _ _ E Hlt) as H.
  by rewrite fmin_candidate_not_below in H.
Qed.

Lemma fold_global_best_fixed (h : list Np.array) (ps : list Particle)
    (best : Np.array * float) :
  Forall (λ p, (get_particle_fitness h p <? best.2)%float = false) ps →
  fold_left (global_best_step h) ps best = best.
Proof.
  induction 1 as [|p ps Hp Hall IH]; [done|].
  simpl. unfold global_best_step at 2. by rewrite Hp.
Qed.

(** X11. [update_global_best] called again on its own result, with the
    particles where they are, changes nothing: the second call finds no
    particle strictly below the global best value. *)
Theorem update_global_best_twice (s : SearchSpace) (w : World) :
  update_global_best (update_global_best s w).1 (update_global_best s w).2
  = update_global_best s w
  ∧ Forall (λ p, (get_particle_fitness (heap w) p
                  <? global_best_value (update_global_best s w).1)%float = false)
      (particles s).
Proof.
  assert (Forall (λ p, (get_particle_fitness (heap w) p
                        <? global_best_value (update_global_best s w).1)%float = false)
            (particles s)) as Hall.
  { rewrite update_global_best_eq. cbn [fst set_global_best global_best_value].
    rewrite fold_global_best_value. apply Forall_forall. intros p Hp.
    apply fold_fmin_no_lower. apply list_elem_of_In, in_map, list_elem_of_In, Hp. }
  split; [|done].
  rewrite !update_global_best_eq in *. cbn [fst snd] in *.
  unfold set_global_best in *.
  cbn [particles global_best_position global_best_value num_particles target
       target_exit_boundary] in *.
  rewrite fold_global_best_fixed; [by destruct (fold_left _ _ _)|].
  by destruct (fold_left _ _ _).
Qed.

Lemma update_loop_settled (F : Particle → float) (ps : list Particle) (w : World) :
  Forall (λ q, position q < length (heap w) ∧ get_particle_fitness (heap w) q = F q) ps →
  Forall2 (λ p p', position p' = position p
                   ∧ (F p <? best_position_value p')%float = false)
    ps (for_each update_best ps w).1.
Proof.
  revert w. induction ps as [|p ps IH]; intros w Hall; [constructor|].
  apply Forall_cons in Hall as [[Hp HF] Hall].
  rewrite for_each_cons. cbn [fst snd].
  pose proof (proj2 (update_best_step p w)) as Hg.
  constructor.
  - rewrite update_best_eq, HF. destruct (_ <? _)%float eqn:E; [|done].
    simpl. split; [done | apply FloatOrder.ltb_irrefl].
  - apply IH. eapply Forall_impl; [exact Hall|]. intros q [Hq HFq].
    split; [pose proof (grows_length _ _ Hg); lia|].
    unfold get_particle_fitness. rewrite (grows_load _ _ _ Hg Hq). exact HFq.
Qed.

Lemma update_loop_fixed (ps : list Particle) (w : World) :
  Forall (λ p, (get_particle_fitness (heap w) p <? best_position_value p)%float = false)
    ps →
  for_each update_best ps w = (ps, w).
Proof.
  induction 1 as [|p ps Hp Hall IH]; [done|].
  rewrite for_each_cons, update_best_eq, Hp. cbn [fst snd]. by rewrite IH.
Qed.

(** X12. [update_particle_best] called again on its own result, with the
    particles where they are, changes nothing and allocates nothing: after
    the first call no particle's fitness is strictly below its best value. *)
Theorem update_particle_best_twice (s : SearchSpace) (w : World) :
  Forall (valid_particle (heap w)) (particles s) →
  update_particle_best (update_particle_best s w).1 (update_particle_best s w).2
  = update_particle_best s w.
Proof.
  intros Hvalid.
  pose proof (update_loop_settled (get_particle_fitness (heap w)) (particles s) w) as Hset.
  pose proof (update_loop_grows (particles s) w) as Hgrow.
  unfold update_particle_best, bind, ret.
  destruct (for_each update_best (particles s) w) as [ps1 w1]. cbn [fst snd] in *.
  cbn [particles set_particles].
  rewrite update_loop_fixed; [done|].
  assert (Forall2 (λ p p', position p' = position p
                           ∧ (get_particle_fitness (heap w) p
                              <? best_position_value p')%float = false)
            (particles s) ps1) as H.
  { apply Hset. eapply Forall_impl; [exact Hvalid|]. by intros q [? _]. }
  apply Forall_forall. intros p' Hp'.
  apply list_elem_of_lookup in Hp' as [i Hi].
  destruct (Forall2_lookup_r _ _ _ _ _ H Hi) as (p & Hp & Hpos & Hlt).
  assert (position p < length (heap w)) as Hv.
  { apply (proj1 (Forall_forall _ _) Hvalid p). apply list_elem_of_lookup. by exists i. }
  unfold get_particle_fitness in *. rewrite Hpos, (grows_load _ _ _ Hgrow Hv). exact Hlt.
Qed.

Lemma update_particle_best_twice_witness :
  let r0 := SearchSpace_init sample 2 0.125 2 empty_world in
  Forall (valid_particle (heap r0.2)) (particles r0.1)
  ∧ update_particle_best (update_particle_best r0.1 r0.2).1
      (update_particle_best r0.1 r0.2).2
    = update_particle_best r0.1 r0.2
  ∧ length (heap (update_particle_best r0.1 r0.2).2) = 4.
Proof.
  cbv zeta.
  assert (Forall (valid_particle (heap (SearchSpace_init sample 2 0.125 2 empty_world).2))
            (particles (SearchSpace_init sample 2 0.125 2 empty_world).1)) as Hv.
  { vm_compute. repeat (split || constructor); lia. }
  split; [exact Hv|].
  split; [exact (update_particle_best_twice _ _ Hv) | by vm_compute].
Defined.

(** ** What the two loops over the particles touch *)

Lemma update_loop_alloc (ps : list Particle) (w : World) :
  length (heap (for_each update_best ps w).2) ≤ length (heap w) + length ps
  ∧ Forall2 (λ p p', best_position p' = best_position p
                     ∨ (length (heap w) ≤ best_position p'
                        ∧ best_position p' < length (heap (for_each update_best ps w).2)))
      ps (for_each update_best ps w).1.
Proof.
  revert w. induction ps as [|p ps IH]; intros w; [simpl; split; [lia | constructor]|].
  rewrite for_each_cons. cbn [fst snd].
  destruct (IH (update_best p w).2) as [Hlen Hall].
  pose proof (grows_length _ _ (proj2 (update_best_step p w))) as Hg1.
  pose proof (grows_length _ _ (update_loop_grows ps (update_best p w).2)) as Hg2.
  assert (length (heap (update_best p w).2) ≤ length (heap w) + 1
          ∧ (best_position (update_best p w).1 = best_position p
             ∨ (best_position (update_best p w).1 = length (heap w)
                ∧ length (heap (update_best p w).2) = length (heap w) + 1))) as [Hl Hb].
  { rewrite update_best_eq. destruct (_ <? _)%float; simpl; [|split; [lia | by left]].
    rewrite length_app. simpl. split; [lia | by right]. }
  split; [simpl; lia|]. constructor.
  - destruct Hb as [? | [? ?]]; [by left | right; lia].
  - eapply Forall2_impl; [exact Hall|]. intros q q' [? | [? ?]]; [by left | right; lia].
Qed.

(** X13. [update_particle_best] draws no number and changes no array that
    exists: the store only gets new objects at its end, at most one for
    each particle.  Every particle keeps its position array and its
    velocity; its best position is the one it had or one of the new
    objects.  The global best and the configuration are left as they were. *)
Theorem update_particle_best_footprint (s : SearchSpace) (w : World) :
  let r := update_particle_best s w in
  cursor r.2 = cursor w
  ∧ (∃ t, heap r.2 = heap w ++ t ∧ length t ≤ length (particles s))
  ∧ Forall2 (λ p p', position p' = position p ∧ velocity p' = velocity p
                     ∧ (best_position p' = best_position p
                        ∨ (length (heap w) ≤ best_position p'
                           ∧ best_position p' < length (heap r.2))))
      (particles s) (particles r.1)
  ∧ global_best_value r.1 = global_best_value s
  ∧ global_best_position r.1 = global_best_position s
  ∧ target r.1 = target s
  ∧ target_exit_boundary r.1 = target_exit_boundary s.
Proof.
  cbv zeta.
  destruct (update_particle_best_step s w) as [Hstep [[t Ht] Hc]].
  destruct (update_particle_best_keeps s w) as (Hv & Hp & Htg & Hb).
  pose proof (update_loop_alloc (particles s) w) as Halloc.
  assert (heap (update_particle_best s w).2 = heap (for_each update_best (particles s) w).2
          ∧ particles (update_particle_best s w).1
            = (for_each update_best (particles s) w).1) as [Hh Hps].
  { unfold update_particle_best, bind, ret.
    by destruct (for_each update_best (particles s) w). }
  rewrite <- Hh, <- Hps in Halloc. destruct Halloc as [Hlen Hall].
  split; [done|]. split.
  { exists t. split; [done|]. rewrite Ht, length_app in Hlen. lia. }
  split; [|done].
  apply Forall2_same_length_lookup_2; [by eapply Forall2_length|].
  intros i p p' Hi Hi'.
  destruct (Forall2_lookup_lr _ _ _ _ _ _ Hstep Hi Hi') as (? & ? & _).
  pose proof (Forall2_lookup_lr _ _ _ _ _ _ Hall Hi Hi') as ?.
  done.
Qed.

(** X14. [iterate_particles] makes no position or best-position array (the
    store keeps its size; the velocity arrays it builds are kept by value
    and are no objects of the store) and writes to no object of the store
    other than the position arrays of its particles: every other object
    reads as before.  Every particle keeps its position array,
    its best position and its best value; the global best and the
    configuration are left as they were. *)
Theorem iterate_particles_footprint (rng : nat → float) (s : SearchSpace) (w : World) :
  let r := iterate_particles rng s w in
  length (heap r.2) = length (heap w)
  ∧ (∀ l, Forall (λ q, (position q =? l) = false) (particles s) →
          load (heap r.2) l = load (heap w) l)
  ∧ Forall2 (λ p p', position p' = position p
                     ∧ best_position p' = best_position p
                     ∧ best_position_value p' = best_position_value p)
      (particles s) (particles r.1)
  ∧ global_best_value r.1 = global_best_value s
  ∧ global_best_position r.1 = global_best_position s
  ∧ target r.1 = target s
  ∧ target_exit_boundary r.1 = target_exit_boundary s.
Proof.
  cbv zeta.
  destruct (iterate_particles_keep rng s w) as (Hkeep & Hlen & Hv & Hp).
  split; [done|]. split.
  { intros l Hl. apply iterate_particles_frame.
    eapply Forall_impl; [exact Hl|]. intros q Hq. by apply Nat.eqb_neq. }
  split; [exact Hkeep|]. split; [done|]. split; [done|].
  unfold iterate_particles, bind, ret. by destruct (for_each _ _ w).
Qed.
